(** * BinaryTree: the plain and the self-balancing binary search tree

    A shallow embedding of [BinarySearchTree.cpp] and
    [SelfBalancingBinaryTree.cpp].  A [Node*] that owns its subtree becomes
    an inductive tree ([Nil] for [nullptr]); the recursive member functions
    become structural fixpoints that return the new subtree root, as the
    C++ functions do.

    Keys and heights are C++ [int]s.  Keys are only ever compared, never
    computed with, so they are modelled as [Z] and every statement below
    holds in particular for keys in the [int] range.  The only arithmetic
    is [1 + max (height l) (height r)] and [height l - height r] on
    heights.  In the trees the class builds a stored height is the number
    of nodes on the longest root-to-leaf path of a balanced tree,
    logarithmic in the number of nodes and so far below [2^31]; the
    arithmetic is therefore taken in [Z].  It agrees with the [int]
    arithmetic of the source wherever the heights read are stored right,
    and the properties of the code stated below read stored heights on
    such trees only: reachable or valid trees, or trees with the
    stored-height invariant assumed.  (Some auxiliary lemmas about the
    rebalancing tails hold of the definitions for all stored heights;
    they are used on such trees.) *)

From Stdlib Require Import ZArith List Bool Lia Sorted Permutation.
Import ListNotations.
Local Open Scope Z_scope.

(** ** Key sequences

    The vocabulary in which the specification speaks about traversals. *)

Section KeySequences.

(** Strictly ascending, every key at most once. *)
Definition ascending (ks : list Z) : Prop := StronglySorted Z.lt ks.

(** Sorted insertion of [k] in front of the first larger key. *)
Fixpoint sorted_insert (k : Z) (ks : list Z) : list Z :=
  match ks with
  | [] => [k]
  | x :: xs => if k <? x then k :: x :: xs else x :: sorted_insert k xs
  end.

(** Deleting every occurrence of [k]. *)
Definition delete_key (k : Z) (ks : list Z) : list Z :=
  List.remove Z.eq_dec k ks.

(** Insertion into a sequence read as a set: a key already there is
    not added a second time. *)
Fixpoint set_insert (k : Z) (ks : list Z) : list Z :=
  match ks with
  | [] => [k]
  | x :: xs =>
      if k <? x then k :: x :: xs
      else if x <? k then x :: set_insert k xs
      else x :: xs
  end.

End KeySequences.

(** ** The public interface, common to both classes

    [void insert(int)], [void remove(int)] and [Node* search(int)]. *)

Inductive op : Type :=
| Insert (k : Z)
| Remove (k : Z).

Inductive call : Type :=
| Mutate (o : op)
| Search (k : Z).

(** What a caller sees of a call: nothing for the two [void] members,
    and for [search] either [nullptr] or a node, read through [->data]. *)
Inductive answer : Type :=
| Void
| NotFound
| Found (data : Z).

(** One observation per call: the in-order sequence after it and its
    answer. *)
Definition observation : Type := (list Z * answer)%type.

(** The effect of a mutation on the key sequence. *)
Definition seq_step (ks : list Z) (o : op) : list Z :=
  match o with
  | Insert k => set_insert k ks
  | Remove k => delete_key k ks
  end.

(** ** The plain binary search tree ([BinarySearchTree.cpp]) *)

Module BinarySearchTree.

(** [struct Node { int data; Node* left; Node* right; }] *)
Inductive tree : Type :=
| Nil : tree
| Node (data : Z) (left right : tree) : tree.

(** [Node* insert(Node* node, int data)] *)
Fixpoint insert (node : tree) (data : Z) : tree :=
  match node with
  | Nil => Node data Nil Nil
  | Node d l r =>
      if data <? d then Node d (insert l data) r
      else if data >? d then Node d l (insert r data)
      else node
  end.

(** [Node* min_value_node(Node* node)]: the loop walks down the left
    spine while there is a left child. *)
Fixpoint min_value_node (node : tree) : tree :=
  match node with
  | Nil => Nil
  | Node _ Nil _ => node
  | Node _ l _ => min_value_node l
  end.

(** [Node* remove(Node* node, int data)].  In the two-children branch
    [node->right] is present, so [min_value_node] returns a node and
    [temp->data] is defined; the [Nil] arm of that match is never taken
    (lemma [min_value_node_present]). *)
Fixpoint remove (node : tree) (data : Z) : tree :=
  match node with
  | Nil => Nil
  | Node d l r =>
      if data <? d then Node d (remove l data) r
      else if data >? d then Node d l (remove r data)
      else
        match l, r with
        | Nil, _ => r
        | _, Nil => l
        | _, _ =>
            match min_value_node r with
            | Node m _ _ => Node m l (remove r m)
            | Nil => node
            end
        end
  end.

(** [Node* search(Node* node, int data)]: the node found, or [Nil]. *)
Fixpoint search (node : tree) (data : Z) : tree :=
  match node with
  | Nil => Nil
  | Node d l r =>
      if d =? data then node
      else if data <? d then search l data
      else search r data
  end.

(** The three traversals, as the sequences of keys they print. *)
Fixpoint in_order (node : tree) : list Z :=
  match node with
  | Nil => []
  | Node d l r => in_order l ++ d :: in_order r
  end.

Fixpoint pre_order (node : tree) : list Z :=
  match node with
  | Nil => []
  | Node d l r => d :: pre_order l ++ pre_order r
  end.

Fixpoint post_order (node : tree) : list Z :=
  match node with
  | Nil => []
  | Node d l r => post_order l ++ post_order r ++ [d]
  end.

(** The ordering invariant of the data model. *)
Fixpoint ordered (t : tree) : Prop :=
  match t with
  | Nil => True
  | Node d l r =>
      ordered l /\ ordered r /\
      Forall (fun x => x < d) (in_order l) /\
      Forall (fun x => d < x) (in_order r)
  end.

(** The public interface: a tree handle is its root. *)
Definition step (t : tree) (o : op) : tree :=
  match o with
  | Insert k => insert t k
  | Remove k => remove t k
  end.

Definition run (ops : list op) (t : tree) : tree := fold_left step ops t.

Definition answer_of (found : tree) : answer :=
  match found with
  | Nil => NotFound
  | Node d _ _ => Found d
  end.

Definition perform (t : tree) (c : call) : tree * answer :=
  match c with
  | Mutate o => (step t o, Void)
  | Search k => (t, answer_of (search t k))
  end.

Fixpoint trace (calls : list call) (t : tree) : list observation :=
  match calls with
  | [] => []
  | c :: calls' =>
      let (t', a) := perform t c in
      (in_order t', a) :: trace calls' t'
  end.

(** Positions inside a tree, for the frame property of [insert]. *)
Inductive dir : Type := L | R.

Fixpoint subtree_at (p : list dir) (t : tree) : option tree :=
  match p, t with
  | [], _ => Some t
  | L :: p', Node _ l _ => subtree_at p' l
  | R :: p', Node _ _ r => subtree_at p' r
  | _ :: _, Nil => None
  end.

Definition key_at (p : list dir) (t : tree) : option Z :=
  match subtree_at p t with
  | Some (Node d _ _) => Some d
  | _ => None
  end.

(** Replacing the subtree at position [p] by [s]. *)
Fixpoint graft (p : list dir) (s : tree) (t : tree) : tree :=
  match p, t with
  | [], _ => s
  | L :: p', Node d l r => Node d (graft p' s l) r
  | R :: p', Node d l r => Node d l (graft p' s r)
  | _ :: _, Nil => Nil
  end.

(** [p] is the path a descent for [k] follows: left below a larger key,
    right below a smaller one, and it ends at an absent child. *)
Fixpoint descent (k : Z) (p : list dir) (t : tree) : Prop :=
  match p, t with
  | [], Nil => True
  | L :: p', Node d l _ => k < d /\ descent k p' l
  | R :: p', Node d _ r => d < k /\ descent k p' r
  | _, _ => False
  end.

Fixpoint size (t : tree) : nat :=
  match t with
  | Nil => O
  | Node _ l r => S (size l + size r)
  end.

(** The height of a tree as a shape, counted in nodes. *)
Fixpoint depth (t : tree) : Z :=
  match t with
  | Nil => 0
  | Node _ l r => 1 + Z.max (depth l) (depth r)
  end.

(** A tree in which no node has a left child. *)
Fixpoint right_spine (t : tree) : Prop :=
  match t with
  | Nil => True
  | Node _ l r => l = Nil /\ right_spine r
  end.

(** [BinarySearchTree()] and [BinarySearchTree(int data)]: the root the
    constructor leaves in the object. *)
Definition new_tree : tree := Nil.

Definition new_tree_with (data : Z) : tree := Node data Nil Nil.

End BinarySearchTree.

(** ** The self-balancing tree ([SelfBalancingBinaryTree.cpp]) *)

Module SelfBalancingBinaryTree.

(** [struct Node { int data; Node* left; Node* right; int height; }] *)
Inductive tree : Type :=
| Nil : tree
| Node (data : Z) (left right : tree) (height : Z) : tree.

(** Dereferencing an absent child is undefined behaviour in the source;
    the embedding stops with the fault that names the place. *)
Inductive fault : Type :=
| rotate_right_without_left   (* [new_root->right] with [node->left == nullptr] *)
| rotate_left_without_right   (* [new_root->left] with [node->right == nullptr] *)
| absent_child_read.          (* [node->left->data] or [node->right->data] on [nullptr] *)

(** The result of a mutating call: the value returned together with the
    number of rotation primitives invoked on the way, or a fault. *)
Inductive outcome (A : Type) : Type :=
| Done (a : A) (rotations : nat)
| Fatal (f : fault).
Arguments Done {A} a rotations.
Arguments Fatal {A} f.

Definition ret {A} (a : A) : outcome A := Done a 0.

Definition bind {A B} (m : outcome A) (f : A -> outcome B) : outcome B :=
  match m with
  | Done a n =>
      match f a with
      | Done b k => Done b (n + k)
      | Fatal e => Fatal e
      end
  | Fatal e => Fatal e
  end.

Notation "x <- m ;; f" := (bind m (fun x => f))
  (at level 61, m at next level, right associativity).

(** The short-circuit [&&] whose right operand may dereference. *)
Definition and_then (b : bool) (m : outcome bool) : outcome bool :=
  if b then m else ret false.

(** [int height(Node* node)] *)
Definition height (node : tree) : Z :=
  match node with
  | Nil => 0
  | Node _ _ _ h => h
  end.

(** [int balance_factor(Node* node)] *)
Definition balance_factor (node : tree) : Z :=
  match node with
  | Nil => 0
  | Node _ l r _ => height l - height r
  end.

(** [void update_height(Node* node)]; every call site passes a node
    that is present. *)
Definition update_height (node : tree) : tree :=
  match node with
  | Nil => Nil
  | Node d l r _ => Node d l r (1 + Z.max (height l) (height r))
  end.

(** [Node* rotate_right(Node* node)] *)
Definition rotate_right (node : tree) : outcome tree :=
  match node with
  | Nil => Fatal absent_child_read
  | Node _ Nil _ _ => Fatal rotate_right_without_left
  | Node d (Node nd nl new_root_right nh) r h =>
      let node' := update_height (Node d new_root_right r h) in
      Done (update_height (Node nd nl node' nh)) 1
  end.

(** [Node* rotate_left(Node* node)] *)
Definition rotate_left (node : tree) : outcome tree :=
  match node with
  | Nil => Fatal absent_child_read
  | Node _ _ Nil _ => Fatal rotate_left_without_right
  | Node d l (Node nd new_root_left nr nh) h =>
      let node' := update_height (Node d l new_root_left h) in
      Done (update_height (Node nd node' nr nh)) 1
  end.

(** [node->left->data] and [node->right->data] *)
Definition left_data (node : tree) : outcome Z :=
  match node with
  | Node _ (Node ld _ _ _) _ _ => ret ld
  | _ => Fatal absent_child_read
  end.

Definition right_data (node : tree) : outcome Z :=
  match node with
  | Node _ _ (Node rd _ _ _) _ => ret rd
  | _ => Fatal absent_child_read
  end.

Definition left (node : tree) : tree :=
  match node with
  | Nil => Nil
  | Node _ l _ _ => l
  end.

Definition right (node : tree) : tree :=
  match node with
  | Nil => Nil
  | Node _ _ r _ => r
  end.

(** [node->left = t] and [node->right = t] *)
Definition set_left (node t : tree) : tree :=
  match node with
  | Nil => Nil
  | Node d _ r h => Node d t r h
  end.

Definition set_right (node t : tree) : tree :=
  match node with
  | Nil => Nil
  | Node d l _ h => Node d l t h
  end.

(** The tail of [insert] after the recursive call (source lines
    122-154): height update, balance factor, the four cases in the
    order of the source. *)
Definition insert_rebalance (node : tree) (data : Z) : outcome tree :=
  let node := update_height node in
  let balance := balance_factor node in
  (* Left Left Case. *)
  ll <- and_then (1 <? balance) (ld <- left_data node ;; ret (data <? ld)) ;;
  if ll then rotate_right node else
  (* Right Right Case. *)
  rr <- and_then (balance <? -1) (rd <- right_data node ;; ret (data >? rd)) ;;
  if rr then rotate_left node else
  (* Left Right Case. *)
  lr <- and_then (1 <? balance) (ld <- left_data node ;; ret (data >? ld)) ;;
  if lr then
    l' <- rotate_left (left node) ;;
    rotate_right (set_left node l')
  else
  (* Right Left Case. *)
  rl <- and_then (balance <? -1) (rd <- right_data node ;; ret (data <? rd)) ;;
  if rl then
    r' <- rotate_right (right node) ;;
    rotate_left (set_right node r')
  else ret node.

(** [Node* insert(Node* node, int data)] *)
Fixpoint insert (node : tree) (data : Z) : outcome tree :=
  match node with
  | Nil => ret (Node data Nil Nil 1)
  | Node d l r h =>
      if data <? d then
        l' <- insert l data ;;
        insert_rebalance (Node d l' r h) data
      else if data >? d then
        r' <- insert r data ;;
        insert_rebalance (Node d l r' h) data
      else ret node
  end.

(** The tail of [remove] after the structural change (source lines
    206-238); the cases are told apart by the balance factor of the
    taller child, and [balance_factor] accepts an absent node. *)
Definition remove_rebalance (node : tree) : outcome tree :=
  let node := update_height node in
  let balance := balance_factor node in
  (* Left Left Case. *)
  if (1 <? balance) && (0 <=? balance_factor (left node)) then
    rotate_right node
  (* Left Right Case. *)
  else if (1 <? balance) && (balance_factor (left node) <? 0) then
    l' <- rotate_left (left node) ;;
    rotate_right (set_left node l')
  (* Right Right Case. *)
  else if (balance <? -1) && (balance_factor (right node) <=? 0) then
    rotate_left node
  (* Right Left Case. *)
  else if (balance <? -1) && (0 <? balance_factor (right node)) then
    r' <- rotate_right (right node) ;;
    rotate_left (set_right node r')
  else ret node.

(** The loop of source lines 189-193: from [node->right] down the left
    spine to the in-order successor. *)
Fixpoint successor (temp : tree) : tree :=
  match temp with
  | Nil => Nil
  | Node _ Nil _ _ => temp
  | Node _ l _ _ => successor l
  end.

(** [Node* remove(Node* node, int data)].  With at most one child the
    node takes over the contents of its child ([*node = *temp]) or
    becomes absent, and an absent node returns at line 204; every other
    path runs into the rebalancing tail.  In the two-children branch
    [node->right] is present, so the successor is a node and the [Nil]
    arm of that match is never taken. *)
Fixpoint remove (node : tree) (data : Z) : outcome tree :=
  match node with
  | Nil => ret Nil
  | Node d l r h =>
      if data <? d then
        l' <- remove l data ;;
        remove_rebalance (Node d l' r h)
      else if data >? d then
        r' <- remove r data ;;
        remove_rebalance (Node d l r' h)
      else
        match l, r with
        | Nil, Nil => ret Nil
        | Node _ _ _ _, Nil => remove_rebalance l
        | Nil, Node _ _ _ _ => remove_rebalance r
        | _, _ =>
            match successor r with
            | Node m _ _ _ =>
                r' <- remove r m ;;
                remove_rebalance (Node m l r' h)
            | Nil => Fatal absent_child_read
            end
        end
  end.

(** [Node* search(Node* node, int data)] *)
Fixpoint search (node : tree) (data : Z) : tree :=
  match node with
  | Nil => Nil
  | Node d l r _ =>
      if d =? data then node
      else if data <? d then search l data
      else search r data
  end.

(** [print_in_order], as the sequence of keys printed. *)
Fixpoint in_order (node : tree) : list Z :=
  match node with
  | Nil => []
  | Node d l r _ => in_order l ++ d :: in_order r
  end.

(** The invariants of the data model. *)
Fixpoint ordered (t : tree) : Prop :=
  match t with
  | Nil => True
  | Node d l r _ =>
      ordered l /\ ordered r /\
      Forall (fun x => x < d) (in_order l) /\
      Forall (fun x => d < x) (in_order r)
  end.

(** Every stored height is one more than the larger child height. *)
Fixpoint heights_stored (t : tree) : Prop :=
  match t with
  | Nil => True
  | Node _ l r h =>
      heights_stored l /\ heights_stored r /\
      h = 1 + Z.max (height l) (height r)
  end.

(** The height of a tree as a shape, counted in nodes. *)
Fixpoint depth (t : tree) : Z :=
  match t with
  | Nil => 0
  | Node _ l r _ => 1 + Z.max (depth l) (depth r)
  end.

(** The balance invariant, on the shape of the tree. *)
Fixpoint balanced (t : tree) : Prop :=
  match t with
  | Nil => True
  | Node _ l r _ =>
      balanced l /\ balanced r /\ -1 <= depth l - depth r <= 1
  end.

(** Stored heights and balance together, in terms of the stored
    heights the code reads. *)
Fixpoint avl (t : tree) : Prop :=
  match t with
  | Nil => True
  | Node _ l r h =>
      avl l /\ avl r /\
      h = 1 + Z.max (height l) (height r) /\
      -1 <= height l - height r <= 1
  end.

Definition valid (t : tree) : Prop := ordered t /\ avl t.

(** The balance invariant as the code reads it: every node's
    [balance_factor] lies in [-1, 1]. *)
Fixpoint factors_bounded (t : tree) : Prop :=
  match t with
  | Nil => True
  | Node _ l r _ =>
      factors_bounded l /\ factors_bounded r /\
      -1 <= balance_factor t <= 1
  end.

(** Every leaf stores height 1. *)
Fixpoint leaves_one (t : tree) : Prop :=
  match t with
  | Nil => True
  | Node _ Nil Nil h => h = 1
  | Node _ l r _ => leaves_one l /\ leaves_one r
  end.

Definition root_data (t : tree) : option Z :=
  match t with
  | Nil => None
  | Node d _ _ _ => Some d
  end.

(** The public interface. *)
Definition step (t : tree) (o : op) : outcome tree :=
  match o with
  | Insert k => insert t k
  | Remove k => remove t k
  end.

Fixpoint run (ops : list op) (t : tree) : outcome tree :=
  match ops with
  | [] => ret t
  | o :: ops' => t' <- step t o ;; run ops' t'
  end.

(** A tree some sequence of public operations builds from the empty one. *)
Definition reachable (t : tree) : Prop :=
  exists ops n, run ops Nil = Done t n.

Definition answer_of (found : tree) : answer :=
  match found with
  | Nil => NotFound
  | Node d _ _ _ => Found d
  end.

Definition perform (t : tree) (c : call) : outcome (tree * answer) :=
  match c with
  | Mutate o => t' <- step t o ;; ret (t', Void)
  | Search k => ret (t, answer_of (search t k))
  end.

Fixpoint trace (calls : list call) (t : tree) : outcome (list observation) :=
  match calls with
  | [] => ret []
  | c :: calls' =>
      r <- perform t c ;;
      os <- trace calls' (fst r) ;;
      ret ((in_order (fst r), snd r) :: os)
  end.

(** The shape of a subtree that has just become one taller by
    inserting [k]: a fresh leaf, or a root whose taller side is the one
    [k] went to. *)
Definition grown (k : Z) (t : tree) : Prop :=
  match t with
  | Nil => False
  | Node d a b _ =>
      (a = Nil /\ b = Nil) \/
      (k < d /\ height a = height b + 1) \/
      (d < k /\ height b = height a + 1)
  end.

(** [print_pre_order] and [print_post_order], as the sequences of keys
    printed. *)
Fixpoint pre_order (node : tree) : list Z :=
  match node with
  | Nil => []
  | Node d l r _ => d :: pre_order l ++ pre_order r
  end.

Fixpoint post_order (node : tree) : list Z :=
  match node with
  | Nil => []
  | Node d l r _ => post_order l ++ post_order r ++ [d]
  end.

Fixpoint size (t : tree) : nat :=
  match t with
  | Nil => O
  | Node _ l r _ => S (size l + size r)
  end.

(** [SelfBalancingBinaryTree()] and [SelfBalancingBinaryTree(int data)]:
    the root the constructor leaves in the object; [Node(int)] sets the
    height to 1. *)
Definition new_tree : tree := Nil.

Definition new_tree_with (data : Z) : tree := Node data Nil Nil 1.

End SelfBalancingBinaryTree.

Module BST := BinarySearchTree.
Module AVL := SelfBalancingBinaryTree.
Import AVL(Done, Fatal).

(** Two small trees holding 10, 20 and 30, used as concrete instances. *)
Definition sample_bst : BST.tree :=
  BST.Node 20 (BST.Node 10 BST.Nil BST.Nil) (BST.Node 30 BST.Nil BST.Nil).

Definition sample_avl : AVL.tree :=
  AVL.Node 20 (AVL.Node 10 AVL.Nil AVL.Nil 1) (AVL.Node 30 AVL.Nil AVL.Nil 1) 2.

(** ** The demonstration of [main] in [SelfBalancingBinaryTree.cpp]

    Seven insertions that build a perfectly balanced tree, then
    [insert(5)]. *)

Definition demo_keys : list Z := [30; 20; 40; 10; 25; 35; 50].

(** The scenario with the number of rotations the last insertion is said
    to trigger left open. *)
Definition demo_after_5 (rotations : nat) : Prop :=
  exists t0 n0 t,
    AVL.run (map Insert demo_keys) AVL.Nil = Done t0 n0 /\
    AVL.insert t0 5 = Done t rotations /\
    AVL.in_order t = [5; 10; 20; 25; 30; 35; 40; 50] /\
    AVL.balanced t /\
    AVL.root_data t = Some 30.

(** The same scenario, saying in addition that 30 is at the root before
    the last insertion already. *)
Definition demo_root_kept (rotations : nat) : Prop :=
  exists t0 n0 t,
    AVL.run (map Insert demo_keys) AVL.Nil = Done t0 n0 /\
    AVL.root_data t0 = Some 30 /\
    AVL.insert t0 5 = Done t rotations /\
    AVL.in_order t = [5; 10; 20; 25; 30; 35; 40; 50] /\
    AVL.balanced t /\
    AVL.root_data t = Some 30.

(** Two reachable trees on which a mutation has to rotate: [insert(30)]
    after 10 and 20, and [remove(10)] after 20, 10, 30 and 25. *)
Definition leaning_right : AVL.tree :=
  AVL.Node 10 AVL.Nil (AVL.Node 20 AVL.Nil AVL.Nil 1) 2.

Definition heavy_right : AVL.tree :=
  AVL.Node 20 (AVL.Node 10 AVL.Nil AVL.Nil 1)
              (AVL.Node 30 (AVL.Node 25 AVL.Nil AVL.Nil 1) AVL.Nil 2) 3.

(** A tree with right stored heights and balance whose keys are out of
    order. *)
Definition unordered_avl : AVL.tree :=
  AVL.Node 20 (AVL.Node 15 AVL.Nil AVL.Nil 1)
              (AVL.Node 10 AVL.Nil (AVL.Node 5 AVL.Nil AVL.Nil 1) 2) 3.

(** * Facts about key sequences *)

Section KeySequenceFacts.

Lemma ascending_app_cons (l1 l2 : list Z) (d : Z) :
  ascending (l1 ++ d :: l2) <->
  ascending l1 /\ ascending l2 /\
  Forall (fun x => x < d) l1 /\ Forall (fun x => d < x) l2.
Proof.
  unfold ascending. induction l1 as [|a l1 IH]; simpl.
  - split.
    + intros H. inversion H; subst. repeat split; auto. constructor.
    + intros (_ & H2 & _ & H4). constructor; assumption.
  - split.
    + intros H. inversion H as [|? ? Hs Hf]; subst.
      apply IH in Hs. destruct Hs as (S1 & S2 & F1 & F2).
      rewrite Forall_app in Hf. destruct Hf as [Hf1 Hf2].
      inversion Hf2; subst.
      repeat split; auto; constructor; auto.
    + intros (S1 & S2 & F1 & F2).
      inversion S1; subst. inversion F1; subst.
      constructor.
      * apply IH. repeat split; assumption.
      * rewrite Forall_app. split; [assumption|].
        constructor; [assumption|].
        eapply Forall_impl; [|exact F2]. simpl. intros; lia.
Qed.

Lemma ascending_NoDup (l : list Z) : ascending l -> NoDup l.
Proof.
  unfold ascending. induction 1 as [|a l Hs IH Hf]; constructor; auto.
  intros Hin. rewrite Forall_forall in Hf. apply Hf in Hin. lia.
Qed.

Lemma in_set_insert (k x : Z) (l : list Z) :
  In x (set_insert k l) <-> x = k \/ In x l.
Proof.
  induction l as [|a l IH]; simpl.
  - intuition congruence.
  - destruct (Z.ltb_spec k a); simpl; [intuition congruence|].
    destruct (Z.ltb_spec a k); simpl.
    + rewrite IH. intuition congruence.
    + assert (a = k) by lia. intuition congruence.
Qed.

Lemma ascending_set_insert (k : Z) (l : list Z) :
  ascending l -> ascending (set_insert k l).
Proof.
  unfold ascending. induction 1 as [|a l Hs IH Hf]; simpl.
  - repeat constructor.
  - destruct (Z.ltb_spec k a).
    + constructor; [constructor; assumption|].
      constructor; [assumption|].
      eapply Forall_impl; [|exact Hf]. simpl. intros; lia.
    + destruct (Z.ltb_spec a k); [|constructor; assumption].
      constructor; [assumption|].
      rewrite Forall_forall in *. intros x Hx.
      apply in_set_insert in Hx. destruct Hx as [->|Hx]; auto.
Qed.

Lemma set_insert_absent (k : Z) (l : list Z) :
  ~ In k l -> set_insert k l = sorted_insert k l.
Proof.
  induction l as [|a l IH]; simpl; intros Hn; [reflexivity|].
  destruct (Z.ltb_spec k a); [reflexivity|].
  destruct (Z.ltb_spec a k).
  - rewrite IH; [reflexivity|tauto].
  - exfalso. apply Hn. left. lia.
Qed.

Lemma set_insert_present (k : Z) (l : list Z) :
  ascending l -> In k l -> set_insert k l = l.
Proof.
  unfold ascending. induction 1 as [|a l Hs IH Hf]; simpl; [tauto|].
  intros [->|Hin].
  - rewrite Z.ltb_irrefl. reflexivity.
  - rewrite Forall_forall in Hf. pose proof (Hf _ Hin).
    destruct (Z.ltb_spec k a); [lia|].
    destruct (Z.ltb_spec a k); [|lia].
    rewrite IH; auto.
Qed.

Lemma set_insert_app_left (k d : Z) (l1 l2 : list Z) :
  k < d -> set_insert k (l1 ++ d :: l2) = set_insert k l1 ++ d :: l2.
Proof.
  intros Hk. induction l1 as [|a l1 IH]; simpl.
  - destruct (Z.ltb_spec k d); [reflexivity|lia].
  - destruct (Z.ltb_spec k a); [reflexivity|].
    destruct (Z.ltb_spec a k); [|reflexivity].
    rewrite IH. reflexivity.
Qed.

Lemma set_insert_app_right (k d : Z) (l1 l2 : list Z) :
  Forall (fun x => x < d) l1 -> d < k ->
  set_insert k (l1 ++ d :: l2) = l1 ++ d :: set_insert k l2.
Proof.
  intros Hf Hk. induction Hf as [|a l1 Ha Hf IH]; simpl.
  - destruct (Z.ltb_spec k d); [lia|].
    destruct (Z.ltb_spec d k); [reflexivity|lia].
  - destruct (Z.ltb_spec k a); [lia|].
    destruct (Z.ltb_spec a k); [|lia].
    rewrite IH. reflexivity.
Qed.

Lemma set_insert_app_here (d : Z) (l1 l2 : list Z) :
  Forall (fun x => x < d) l1 ->
  set_insert d (l1 ++ d :: l2) = l1 ++ d :: l2.
Proof.
  intros Hf. induction Hf as [|a l1 Ha Hf IH]; simpl.
  - rewrite Z.ltb_irrefl. reflexivity.
  - destruct (Z.ltb_spec d a); [lia|].
    destruct (Z.ltb_spec a d); [|lia].
    rewrite IH. reflexivity.
Qed.

Lemma in_delete_key (k x : Z) (l : list Z) :
  In x (delete_key k l) <-> In x l /\ x <> k.
Proof.
  unfold delete_key. split.
  - apply in_remove.
  - intros [H1 H2]. apply in_in_remove; assumption.
Qed.

Lemma delete_key_absent (k : Z) (l : list Z) :
  ~ In k l -> delete_key k l = l.
Proof. apply notin_remove. Qed.

Lemma delete_key_app (k : Z) (l1 l2 : list Z) :
  delete_key k (l1 ++ l2) = delete_key k l1 ++ delete_key k l2.
Proof. apply remove_app. Qed.

Lemma delete_key_cons_eq (k : Z) (l : list Z) :
  delete_key k (k :: l) = delete_key k l.
Proof. unfold delete_key. simpl. destruct (Z.eq_dec k k); congruence. Qed.

Lemma delete_key_cons_neq (k d : Z) (l : list Z) :
  k <> d -> delete_key k (d :: l) = d :: delete_key k l.
Proof. unfold delete_key. simpl. destruct (Z.eq_dec k d); congruence. Qed.

Lemma ascending_delete_key (k : Z) (l : list Z) :
  ascending l -> ascending (delete_key k l).
Proof.
  unfold ascending. induction 1 as [|a l Hs IH Hf].
  - constructor.
  - destruct (Z.eq_dec k a) as [->|Hne].
    + rewrite delete_key_cons_eq. assumption.
    + rewrite delete_key_cons_neq by assumption.
      constructor; [assumption|].
      rewrite Forall_forall in *. intros x Hx.
      apply in_delete_key in Hx. apply Hf. tauto.
Qed.

Lemma Forall_lt_not_in (d : Z) (l : list Z) :
  Forall (fun x => x < d) l -> forall k, d <= k -> ~ In k l.
Proof.
  intros Hf k Hk Hin. rewrite Forall_forall in Hf. apply Hf in Hin. lia.
Qed.

Lemma Forall_gt_not_in (d : Z) (l : list Z) :
  Forall (fun x => d < x) l -> forall k, k <= d -> ~ In k l.
Proof.
  intros Hf k Hk Hin. rewrite Forall_forall in Hf. apply Hf in Hin. lia.
Qed.

(** Deleting from the three parts of an in-order sequence. *)
Lemma delete_key_left (k d : Z) (l1 l2 : list Z) :
  k < d -> Forall (fun x => d < x) l2 ->
  delete_key k (l1 ++ d :: l2) = delete_key k l1 ++ d :: l2.
Proof.
  intros Hk Hf. rewrite delete_key_app, delete_key_cons_neq by lia.
  rewrite (delete_key_absent k l2); [reflexivity|].
  eapply Forall_gt_not_in; [eassumption|lia].
Qed.

Lemma delete_key_right (k d : Z) (l1 l2 : list Z) :
  d < k -> Forall (fun x => x < d) l1 ->
  delete_key k (l1 ++ d :: l2) = l1 ++ d :: delete_key k l2.
Proof.
  intros Hk Hf. rewrite delete_key_app, delete_key_cons_neq by lia.
  rewrite (delete_key_absent k l1); [reflexivity|].
  eapply Forall_lt_not_in; [eassumption|lia].
Qed.

Lemma delete_key_here (d : Z) (l1 l2 : list Z) :
  Forall (fun x => x < d) l1 -> Forall (fun x => d < x) l2 ->
  delete_key d (l1 ++ d :: l2) = l1 ++ l2.
Proof.
  intros H1 H2. rewrite delete_key_app, delete_key_cons_eq.
  rewrite !delete_key_absent; [reflexivity| |].
  - eapply Forall_gt_not_in; [eassumption|lia].
  - eapply Forall_lt_not_in; [eassumption|lia].
Qed.

(** Deleting the head of an ascending sequence. *)
Lemma delete_key_head (m : Z) (l : list Z) :
  ascending (m :: l) -> delete_key m (m :: l) = l.
Proof.
  intros H. inversion H; subst. rewrite delete_key_cons_eq.
  apply delete_key_absent. eapply Forall_gt_not_in; [eassumption|lia].
Qed.

End KeySequenceFacts.

(** * Facts about the plain tree *)

Section PlainTreeFacts.

Lemma bst_ordered_ascending (t : BST.tree) :
  BST.ordered t <-> ascending (BST.in_order t).
Proof.
  induction t as [|d l IHl r IHr]; simpl.
  - split; [constructor|trivial].
  - rewrite ascending_app_cons, IHl, IHr. tauto.
Qed.

Lemma bst_in_order_nil (t : BST.tree) :
  BST.in_order t = [] -> t = BST.Nil.
Proof.
  destruct t as [|d l r]; simpl; [reflexivity|].
  intros H. destruct (BST.in_order l); discriminate.
Qed.

Lemma bst_insert_in_order (t : BST.tree) (k : Z) :
  BST.ordered t ->
  BST.in_order (BST.insert t k) = set_insert k (BST.in_order t).
Proof.
  induction t as [|d l IHl r IHr]; simpl; [reflexivity|].
  intros (Ol & Or & Fl & Fr).
  rewrite Z.gtb_ltb.
  destruct (Z.ltb_spec k d) as [Hlt|Hge]; simpl.
  - rewrite IHl, set_insert_app_left by assumption. reflexivity.
  - destruct (Z.ltb_spec d k) as [Hgt|Hle]; simpl.
    + rewrite IHr, set_insert_app_right by assumption. reflexivity.
    + assert (k = d) by lia. subst k.
      rewrite set_insert_app_here by assumption. reflexivity.
Qed.

(** The left-spine walk ends at a node that holds the first key of the
    in-order sequence. *)
Lemma min_value_node_present (t : BST.tree) :
  t <> BST.Nil ->
  exists m a b rest,
    BST.min_value_node t = BST.Node m a b /\ BST.in_order t = m :: rest.
Proof.
  induction t as [|d l IHl r _]; [congruence|]. intros _.
  destruct l as [|ld ll lr].
  - exists d, BST.Nil, r, (BST.in_order r). split; reflexivity.
  - destruct IHl as (m & a & b & rest & Hm & Hi); [discriminate|].
    exists m, a, b, (rest ++ d :: BST.in_order r). split.
    + exact Hm.
    + change (BST.in_order (BST.Node d (BST.Node ld ll lr) r))
        with (BST.in_order (BST.Node ld ll lr) ++ d :: BST.in_order r).
      rewrite Hi. reflexivity.
Qed.

Lemma bst_remove_in_order (t : BST.tree) (k : Z) :
  BST.ordered t ->
  BST.in_order (BST.remove t k) = delete_key k (BST.in_order t).
Proof.
  revert k. induction t as [|d l IHl r IHr]; intros k; [reflexivity|].
  intros (Ol & Or & Fl & Fr).
  cbn [BST.remove BST.in_order]. rewrite Z.gtb_ltb.
  destruct (Z.ltb_spec k d) as [Hlt|Hge].
  - cbn [BST.in_order]. rewrite IHl, delete_key_left by assumption.
    reflexivity.
  - destruct (Z.ltb_spec d k) as [Hgt|Hle].
    + cbn [BST.in_order]. rewrite IHr, delete_key_right by assumption.
      reflexivity.
    + assert (k = d) by lia. subst k.
      rewrite delete_key_here by assumption.
      destruct l as [|ld ll lr]; [reflexivity|].
      destruct r as [|rd rl rr]; [symmetry; apply app_nil_r|].
      destruct (min_value_node_present (BST.Node rd rl rr))
        as (m & a & b & rest & Hm & Hi); [discriminate|].
      rewrite Hm. cbn [BST.in_order].
      rewrite IHr by assumption.
      apply bst_ordered_ascending in Or.
      change (BST.in_order rl ++ rd :: BST.in_order rr)
        with (BST.in_order (BST.Node rd rl rr)).
      rewrite Hi in *. rewrite delete_key_head by assumption.
      reflexivity.
Qed.

Lemma bst_insert_ordered (t : BST.tree) (k : Z) :
  BST.ordered t -> BST.ordered (BST.insert t k).
Proof.
  intros H. apply bst_ordered_ascending.
  rewrite bst_insert_in_order by assumption.
  apply ascending_set_insert, bst_ordered_ascending, H.
Qed.

Lemma bst_remove_ordered (t : BST.tree) (k : Z) :
  BST.ordered t -> BST.ordered (BST.remove t k).
Proof.
  intros H. apply bst_ordered_ascending.
  rewrite bst_remove_in_order by assumption.
  apply ascending_delete_key, bst_ordered_ascending, H.
Qed.

Lemma bst_step_ordered (t : BST.tree) (o : op) :
  BST.ordered t -> BST.ordered (BST.step t o).
Proof.
  destruct o; simpl; [apply bst_insert_ordered|apply bst_remove_ordered].
Qed.

Lemma bst_run_ordered (ops : list op) (t : BST.tree) :
  BST.ordered t -> BST.ordered (BST.run ops t).
Proof.
  revert t. induction ops as [|o ops IH]; intros t H; simpl; [exact H|].
  apply IH, bst_step_ordered, H.
Qed.

Lemma bst_insert_present (t : BST.tree) (k : Z) :
  BST.ordered t -> In k (BST.in_order t) -> BST.insert t k = t.
Proof.
  induction t as [|d l IHl r IHr]; simpl; [tauto|].
  intros (Ol & Or & Fl & Fr) Hin. rewrite Z.gtb_ltb.
  apply in_app_or in Hin.
  destruct (Z.ltb_spec k d) as [Hlt|Hge].
  - rewrite IHl; auto. destruct Hin as [Hin|[Heq|Hin]]; auto; [lia|].
    exfalso. eapply Forall_gt_not_in; [exact Fr| |exact Hin]. lia.
  - destruct (Z.ltb_spec d k) as [Hgt|Hle]; [|reflexivity].
    rewrite IHr; auto. destruct Hin as [Hin|[Heq|Hin]]; auto; [|lia].
    exfalso. eapply Forall_lt_not_in; [exact Fl| |exact Hin]. lia.
Qed.

Lemma bst_remove_absent (t : BST.tree) (k : Z) :
  ~ In k (BST.in_order t) -> BST.remove t k = t.
Proof.
  induction t as [|d l IHl r IHr]; [reflexivity|].
  cbn [BST.remove BST.in_order]. intros Hn. rewrite Z.gtb_ltb.
  assert (Hl : ~ In k (BST.in_order l)) by (rewrite in_app_iff in Hn; tauto).
  assert (Hr : ~ In k (BST.in_order r))
    by (rewrite in_app_iff in Hn; simpl in Hn; tauto).
  assert (Hd : k <> d)
    by (intros ->; apply Hn, in_or_app; right; left; reflexivity).
  destruct (Z.ltb_spec k d); [rewrite IHl by assumption; reflexivity|].
  destruct (Z.ltb_spec d k); [rewrite IHr by assumption; reflexivity|].
  lia.
Qed.

(** [search] finds a key exactly when the traversal lists it. *)
Lemma bst_search_found (t : BST.tree) (k : Z) :
  BST.ordered t -> In k (BST.in_order t) ->
  exists l r, BST.search t k = BST.Node k l r.
Proof.
  induction t as [|d l IHl r IHr]; simpl; [tauto|].
  intros (Ol & Or & Fl & Fr) Hin. apply in_app_or in Hin.
  destruct (Z.eqb_spec d k) as [->|Hne]; [eauto|].
  destruct (Z.ltb_spec k d) as [Hlt|Hge].
  - apply IHl; auto. destruct Hin as [Hin|[Heq|Hin]]; auto; [lia|].
    exfalso. eapply Forall_gt_not_in; [exact Fr| |exact Hin]. lia.
  - apply IHr; auto. destruct Hin as [Hin|[Heq|Hin]]; auto; [|lia].
    exfalso. eapply Forall_lt_not_in; [exact Fl| |exact Hin]. lia.
Qed.

Lemma bst_search_absent (t : BST.tree) (k : Z) :
  ~ In k (BST.in_order t) -> BST.search t k = BST.Nil.
Proof.
  induction t as [|d l IHl r IHr]; simpl; [reflexivity|].
  intros Hn. rewrite in_app_iff in Hn. simpl in Hn.
  destruct (Z.eqb_spec d k); [tauto|].
  destruct (Z.ltb_spec k d); [apply IHl|apply IHr]; tauto.
Qed.

End PlainTreeFacts.

(** * Facts about the self-balancing tree *)

Section BalancedTreeFacts.

Lemma avl_ordered_ascending (t : AVL.tree) :
  AVL.ordered t <-> ascending (AVL.in_order t).
Proof.
  induction t as [|d l IHl r IHr h]; simpl.
  - split; [constructor|trivial].
  - rewrite ascending_app_cons, IHl, IHr. tauto.
Qed.

Lemma avl_in_order_nil (t : AVL.tree) :
  AVL.in_order t = [] -> t = AVL.Nil.
Proof.
  destruct t as [|d l r h]; simpl; [reflexivity|].
  intros H. destruct (AVL.in_order l); discriminate.
Qed.

Lemma avl_height_nonneg (t : AVL.tree) : AVL.avl t -> 0 <= AVL.height t.
Proof.
  induction t as [|d l IHl r IHr h]; cbn [AVL.avl AVL.height AVL.depth AVL.balanced AVL.heights_stored]; [lia|].
  intros (Al & Ar & Hh & Hb). specialize (IHl Al). specialize (IHr Ar). lia.
Qed.

Lemma avl_height_depth (t : AVL.tree) :
  AVL.avl t -> AVL.height t = AVL.depth t.
Proof.
  induction t as [|d l IHl r IHr h]; cbn [AVL.avl AVL.height AVL.depth AVL.balanced AVL.heights_stored]; [reflexivity|].
  intros (Al & Ar & Hh & Hb). rewrite <- IHl, <- IHr by assumption. exact Hh.
Qed.

Lemma avl_balanced (t : AVL.tree) : AVL.avl t -> AVL.balanced t.
Proof.
  induction t as [|d l IHl r IHr h]; cbn [AVL.avl AVL.height AVL.depth AVL.balanced AVL.heights_stored]; [trivial|].
  intros (Al & Ar & Hh & Hb).
  rewrite <- !avl_height_depth by assumption. auto.
Qed.

Lemma avl_heights_stored (t : AVL.tree) : AVL.avl t -> AVL.heights_stored t.
Proof.
  induction t as [|d l IHl r IHr h]; cbn [AVL.avl AVL.height AVL.depth AVL.balanced AVL.heights_stored]; [trivial|].
  intros (Al & Ar & Hh & Hb). auto.
Qed.

End BalancedTreeFacts.

(** Unfolding one call of the rebalancing code without touching the
    integer arithmetic. *)
Ltac avl_red :=
  cbn [AVL.bind AVL.ret AVL.and_then AVL.update_height AVL.balance_factor
       AVL.height AVL.left AVL.right AVL.set_left AVL.set_right
       AVL.left_data AVL.right_data AVL.rotate_left AVL.rotate_right
       AVL.avl AVL.in_order andb Nat.add] in *.

(** Deciding the integer tests of the code, dropping impossible branches. *)
Ltac cmp_cases :=
  repeat (avl_red;
    match goal with
    | |- context [?a >? ?b] => rewrite (Z.gtb_ltb a b)
    | |- context [?a <? ?b] => destruct (Z.ltb_spec a b); try lia
    | |- context [?a <=? ?b] => destruct (Z.leb_spec a b); try lia
    end).

(** Splitting the invariant of a node in the context. *)
Ltac avl_hyps :=
  avl_red;
  repeat match goal with
         | H : _ /\ _ |- _ => destruct H
         | H : AVL.avl ?t |- _ =>
             lazymatch goal with
             | _ : 0 <= AVL.height t |- _ => fail
             | _ => pose proof (avl_height_nonneg t H)
             end
         end.

Section Rebalancing.

Lemma insert_rebalance_left (d h k : Z) (l r : AVL.tree) :
  AVL.avl l -> AVL.avl r ->
  AVL.height r - 1 <= AVL.height l <= AVL.height r + 2 ->
  (AVL.height l = AVL.height r + 2 -> AVL.grown k l) ->
  exists t n,
    AVL.insert_rebalance (AVL.Node d l r h) k = Done t n /\
    AVL.avl t /\
    AVL.in_order t = AVL.in_order l ++ d :: AVL.in_order r /\
    (AVL.height l <= AVL.height r + 1 ->
     t = AVL.Node d l r (1 + Z.max (AVL.height l) (AVL.height r)) /\ n = O) /\
    (AVL.height l = AVL.height r + 2 -> AVL.height t = AVL.height l).
Proof.
  intros Al Ar Hh Hg. unfold AVL.insert_rebalance.
  destruct (Z.le_gt_cases (AVL.height l) (AVL.height r + 1)) as [Hle|Hgt].
  - clear Hg. cmp_cases. do 2 eexists. split; [reflexivity|].
    avl_hyps. repeat split; auto; lia.
  - assert (Hg' : AVL.grown k l) by (apply Hg; lia). clear Hg.
    destruct l as [|ld a b lh]; [contradiction|].
    destruct Hg' as [[-> ->]|[[Hk Hab]|[Hk Hab]]].
    + avl_hyps. lia.
    + avl_hyps. cmp_cases. do 2 eexists. split; [reflexivity|].
      avl_red. repeat split; auto; try lia.
      rewrite <- app_assoc. reflexivity.
    + avl_hyps. destruct b as [|bd bl br bh]; [avl_red; lia|].
      avl_hyps. cmp_cases. do 2 eexists. split; [reflexivity|].
      avl_red. repeat split; auto; try lia.
      rewrite <- !app_assoc. simpl. rewrite <- app_assoc. reflexivity.
Qed.

Lemma insert_rebalance_right (d h k : Z) (l r : AVL.tree) :
  AVL.avl l -> AVL.avl r ->
  AVL.height l - 1 <= AVL.height r <= AVL.height l + 2 ->
  (AVL.height r = AVL.height l + 2 -> AVL.grown k r) ->
  exists t n,
    AVL.insert_rebalance (AVL.Node d l r h) k = Done t n /\
    AVL.avl t /\
    AVL.in_order t = AVL.in_order l ++ d :: AVL.in_order r /\
    (AVL.height r <= AVL.height l + 1 ->
     t = AVL.Node d l r (1 + Z.max (AVL.height l) (AVL.height r)) /\ n = O) /\
    (AVL.height r = AVL.height l + 2 -> AVL.height t = AVL.height r).
Proof.
  intros Al Ar Hh Hg. unfold AVL.insert_rebalance.
  destruct (Z.le_gt_cases (AVL.height r) (AVL.height l + 1)) as [Hle|Hgt].
  - clear Hg. cmp_cases. do 2 eexists. split; [reflexivity|].
    avl_hyps. repeat split; auto; lia.
  - assert (Hg' : AVL.grown k r) by (apply Hg; lia). clear Hg.
    destruct r as [|rd a b rh]; [contradiction|].
    destruct Hg' as [[-> ->]|[[Hk Hab]|[Hk Hab]]].
    + avl_hyps. lia.
    + avl_hyps. destruct a as [|ad al ar ah]; [avl_red; lia|].
      avl_hyps. cmp_cases. do 2 eexists. split; [reflexivity|].
      avl_red. repeat split; auto; try lia.
      rewrite <- !app_assoc. simpl. reflexivity.
    + avl_hyps. cmp_cases. do 2 eexists. split; [reflexivity|].
      avl_red. repeat split; auto; try lia.
      rewrite <- app_assoc. reflexivity.
Qed.

(** The rebalancing tail of [remove] on a node whose children are
    valid and differ in height by at most two. *)
Lemma remove_rebalance_spec (d h : Z) (l r : AVL.tree) :
  AVL.avl l -> AVL.avl r ->
  -2 <= AVL.height l - AVL.height r <= 2 ->
  exists t n,
    AVL.remove_rebalance (AVL.Node d l r h) = Done t n /\
    AVL.avl t /\
    AVL.in_order t = AVL.in_order l ++ d :: AVL.in_order r /\
    (-1 <= AVL.height l - AVL.height r <= 1 ->
     t = AVL.Node d l r (1 + Z.max (AVL.height l) (AVL.height r)) /\ n = O) /\
    Z.max (AVL.height l) (AVL.height r) <= AVL.height t
      <= 1 + Z.max (AVL.height l) (AVL.height r).
Proof.
  intros Al Ar Hh. unfold AVL.remove_rebalance.
  destruct (Z.lt_trichotomy (AVL.height l - AVL.height r) 2)
    as [Hlt|[Heq|Hgt]]; [|clear Hh|lia].
  - destruct (Z.lt_trichotomy (AVL.height l - AVL.height r) (-2))
      as [Hlt'|[Heq|Hgt]]; [lia|clear Hh|].
    + (* the right side is two taller *)
      destruct r as [|rd a b rh]; [avl_hyps; lia|].
      avl_hyps.
      destruct (Z.le_gt_cases (AVL.height a - AVL.height b) 0).
      * cmp_cases. do 2 eexists. split; [reflexivity|].
        avl_red. repeat split; auto; try lia.
        rewrite <- app_assoc. reflexivity.
      * destruct a as [|ad al ar ah]; [avl_red; lia|].
        avl_hyps. cmp_cases. do 2 eexists. split; [reflexivity|].
        avl_red. repeat split; auto; try lia.
        rewrite <- !app_assoc. simpl. reflexivity.
    + (* within the invariant: nothing to repair *)
      avl_hyps. cmp_cases; do 2 eexists; (split; [reflexivity|]);
        avl_red; repeat split; auto; lia.
  - (* the left side is two taller *)
    destruct l as [|ld a b lh]; [avl_hyps; lia|].
    avl_hyps.
    destruct (Z.le_gt_cases 0 (AVL.height a - AVL.height b)).
    + cmp_cases. do 2 eexists. split; [reflexivity|].
      avl_red. repeat split; auto; try lia.
      rewrite <- app_assoc. reflexivity.
    + destruct b as [|bd bl br bh]; [avl_red; lia|].
      avl_hyps. cmp_cases. do 2 eexists. split; [reflexivity|].
      avl_red. repeat split; auto; try lia.
      rewrite <- !app_assoc. simpl. rewrite <- app_assoc. reflexivity.
Qed.

(** On a valid node the rebalancing tail changes nothing. *)
Lemma remove_rebalance_valid (d h : Z) (l r : AVL.tree) :
  AVL.avl (AVL.Node d l r h) ->
  AVL.remove_rebalance (AVL.Node d l r h) = Done (AVL.Node d l r h) 0.
Proof.
  intros Ha. pose proof Ha as (Al & Ar & Hh & Hb).
  destruct (remove_rebalance_spec d h l r Al Ar) as (t & n & E & _ & _ & Hid & _);
    [lia|].
  destruct (Hid Hb) as [-> ->]. rewrite E, <- Hh. reflexivity.
Qed.

Lemma insert_rebalance_valid (d h k : Z) (l r : AVL.tree) :
  AVL.avl (AVL.Node d l r h) ->
  AVL.insert_rebalance (AVL.Node d l r h) k = Done (AVL.Node d l r h) 0.
Proof.
  intros Ha. pose proof Ha as (Al & Ar & Hh & Hb).
  destruct (insert_rebalance_left d h k l r Al Ar) as (t & n & E & _ & _ & Hid & _);
    [lia|lia|].
  destruct Hid as [-> ->]; [lia|]. rewrite E, <- Hh. reflexivity.
Qed.

End Rebalancing.

Section BalancedTreeOperations.

(** [insert] on a valid tree: it returns, the result is valid, the
    traversal gains the key, and the height grows by at most one. *)
Lemma avl_insert_spec (t : AVL.tree) (k : Z) :
  AVL.ordered t -> AVL.avl t ->
  exists t' n,
    AVL.insert t k = Done t' n /\
    AVL.avl t' /\
    AVL.in_order t' = set_insert k (AVL.in_order t) /\
    (AVL.height t' = AVL.height t \/
     (AVL.height t' = AVL.height t + 1 /\ AVL.grown k t')).
Proof.
  induction t as [|d l IHl r IHr h].
  - intros _ _. do 2 eexists. split; [reflexivity|].
    cbn [AVL.avl AVL.height AVL.in_order set_insert AVL.grown app].
    repeat split; auto; try lia; right; (split; [lia|]); left; auto.
  - intros (Ol & Or & Fl & Fr) Ha. pose proof Ha as (Al & Ar & Hh & Hb).
    cbn [AVL.insert]. rewrite Z.gtb_ltb.
    destruct (Z.ltb_spec k d) as [Hlt|Hge].
    + destruct (IHl Ol Al) as (l' & n1 & E1 & Al' & Il' & Hl').
      destruct (insert_rebalance_left d h k l' r Al' Ar)
        as (t' & n2 & E2 & At' & It' & Hsame & Hrot); [lia|intros; destruct Hl' as [?|[_ ?]]; [lia|assumption]|].
      rewrite E1. cbn [AVL.bind]. rewrite E2.
      do 2 eexists. split; [reflexivity|]. split; [exact At'|]. split.
      * cbn [AVL.in_order]. rewrite It', Il', set_insert_app_left by assumption. reflexivity.
      * cbn [AVL.height].
        destruct (Z.le_gt_cases (AVL.height l') (AVL.height r + 1)) as [Hc|Hc].
        -- destruct (Hsame Hc) as [-> _]. cbn [AVL.height AVL.grown].
           destruct (Z.eq_dec (AVL.height l') (AVL.height l)) as [He|He];
             [left; lia|].
           destruct (Z.le_gt_cases (AVL.height l') (AVL.height r));
             [left; lia|].
           right. split; [lia|]. right. left. split; lia.
        -- left. rewrite Hrot; lia.
    + destruct (Z.ltb_spec d k) as [Hgt|Hle].
      * destruct (IHr Or Ar) as (r' & n1 & E1 & Ar' & Ir' & Hr').
        destruct (insert_rebalance_right d h k l r' Al Ar')
          as (t' & n2 & E2 & At' & It' & Hsame & Hrot); [lia|intros; destruct Hr' as [?|[_ ?]]; [lia|assumption]|].
        rewrite E1. cbn [AVL.bind]. rewrite E2.
        do 2 eexists. split; [reflexivity|]. split; [exact At'|]. split.
        -- cbn [AVL.in_order]. rewrite It', Ir', set_insert_app_right by assumption. reflexivity.
        -- cbn [AVL.height].
           destruct (Z.le_gt_cases (AVL.height r') (AVL.height l + 1)) as [Hc|Hc].
           ++ destruct (Hsame Hc) as [-> _]. cbn [AVL.height AVL.grown].
              destruct (Z.eq_dec (AVL.height r') (AVL.height r)) as [He|He];
                [left; lia|].
              destruct (Z.le_gt_cases (AVL.height r') (AVL.height l));
                [left; lia|].
              right. split; [lia|]. right. right. split; lia.
           ++ left. rewrite Hrot; lia.
      * assert (k = d) by lia. subst k.
        do 2 eexists. split; [reflexivity|]. split; [exact Ha|]. split.
        -- cbn [AVL.in_order]. rewrite set_insert_app_here by assumption.
           reflexivity.
        -- left. reflexivity.
Qed.

(** The successor loop ends at a node that holds the first key of the
    in-order sequence. *)
Lemma successor_present (t : AVL.tree) :
  t <> AVL.Nil ->
  exists m a b mh rest,
    AVL.successor t = AVL.Node m a b mh /\ AVL.in_order t = m :: rest.
Proof.
  induction t as [|d l IHl r _ h]; [congruence|]. intros _.
  destruct l as [|ld ll lr lh].
  - exists d, AVL.Nil, r, h, (AVL.in_order r). split; reflexivity.
  - destruct IHl as (m & a & b & mh & rest & Hm & Hi); [discriminate|].
    exists m, a, b, mh, (rest ++ d :: AVL.in_order r). split.
    + exact Hm.
    + change (AVL.in_order (AVL.Node d (AVL.Node ld ll lr lh) r h))
        with (AVL.in_order (AVL.Node ld ll lr lh) ++ d :: AVL.in_order r).
      rewrite Hi. reflexivity.
Qed.

(** [remove] on a valid tree: it returns, the result is valid, the
    traversal loses the key, and the height shrinks by at most one. *)
Lemma avl_remove_spec (t : AVL.tree) (k : Z) :
  AVL.ordered t -> AVL.avl t ->
  exists t' n,
    AVL.remove t k = Done t' n /\
    AVL.avl t' /\
    AVL.in_order t' = delete_key k (AVL.in_order t) /\
    AVL.height t - 1 <= AVL.height t' <= AVL.height t.
Proof.
  revert k. induction t as [|d l IHl r IHr h]; intros k.
  - intros _ _. do 2 eexists. split; [reflexivity|].
    cbn [AVL.avl AVL.height AVL.in_order]. repeat split; auto; lia.
  - intros (Ol & Or & Fl & Fr) Ha. pose proof Ha as (Al & Ar & Hh & Hb).
    pose proof (avl_height_nonneg l Al) as Hl0.
    pose proof (avl_height_nonneg r Ar) as Hr0.
    cbn [AVL.remove]. rewrite Z.gtb_ltb.
    destruct (Z.ltb_spec k d) as [Hlt|Hge].
    + destruct (IHl k Ol Al) as (l' & n1 & E1 & Al' & Il' & Hl').
      destruct (remove_rebalance_spec d h l' r Al' Ar)
        as (t' & n2 & E2 & At' & It' & Hsame & Hht); [lia|].
      rewrite E1. cbn [AVL.bind]. rewrite E2.
      do 2 eexists. split; [reflexivity|]. split; [exact At'|]. split.
      * rewrite It', Il'. cbn [AVL.in_order].
        rewrite delete_key_left by assumption. reflexivity.
      * cbn [AVL.height].
        destruct (Z.le_gt_cases (AVL.height r) (AVL.height l' + 1)) as [Hc|Hc].
        -- destruct Hsame as [-> _]; [lia|]. cbn [AVL.height]. lia.
        -- lia.
    + destruct (Z.ltb_spec d k) as [Hgt|Hle].
      * destruct (IHr k Or Ar) as (r' & n1 & E1 & Ar' & Ir' & Hr').
        destruct (remove_rebalance_spec d h l r' Al Ar')
          as (t' & n2 & E2 & At' & It' & Hsame & Hht); [lia|].
        rewrite E1. cbn [AVL.bind]. rewrite E2.
        do 2 eexists. split; [reflexivity|]. split; [exact At'|]. split.
        -- rewrite It', Ir'. cbn [AVL.in_order].
           rewrite delete_key_right by assumption. reflexivity.
        -- cbn [AVL.height].
           destruct (Z.le_gt_cases (AVL.height l) (AVL.height r' + 1)) as [Hc|Hc].
           ++ destruct Hsame as [-> _]; [lia|]. cbn [AVL.height]. lia.
           ++ lia.
      * assert (k = d) by lia. subst k.
        cbn [AVL.in_order]. rewrite delete_key_here by assumption.
        destruct l as [|ld ll lr lh]; destruct r as [|rd rl rr rh].
        -- do 2 eexists. split; [reflexivity|].
           cbn [AVL.avl AVL.height AVL.in_order app] in *.
           repeat split; auto; lia.
        -- rewrite remove_rebalance_valid by assumption.
           do 2 eexists. split; [reflexivity|]. split; [exact Ar|].
           split; [reflexivity|]. cbn [AVL.height] in *. lia.
        -- rewrite remove_rebalance_valid by assumption.
           do 2 eexists. split; [reflexivity|]. split; [exact Al|].
           split; [symmetry; apply app_nil_r|]. cbn [AVL.height] in *. lia.
        -- destruct (successor_present (AVL.Node rd rl rr rh))
             as (m & a & b & mh & rest & Hm & Hi); [discriminate|].
           rewrite Hm.
           destruct (IHr m Or Ar) as (r' & n1 & E1 & Ar' & Ir' & Hr').
           destruct (remove_rebalance_spec m h (AVL.Node ld ll lr lh) r' Al Ar')
             as (t' & n2 & E2 & At' & It' & Hsame & Hht); [lia|].
           rewrite E1. cbn [AVL.bind]. rewrite E2.
           do 2 eexists. split; [reflexivity|]. split; [exact At'|]. split.
           ++ rewrite It', Ir', Hi.
              apply avl_ordered_ascending in Or. rewrite Hi in Or.
              rewrite delete_key_head by assumption. reflexivity.
           ++ set (L := AVL.Node ld ll lr lh) in *.
              set (R := AVL.Node rd rl rr rh) in *.
              change (AVL.height (AVL.Node d L R h)) with h.
              destruct (Z.le_gt_cases (AVL.height L) (AVL.height r' + 1)) as [Hc|Hc].
              ** destruct Hsame as [-> _]; [lia|]. cbn [AVL.height]. lia.
              ** lia.
Qed.

End BalancedTreeOperations.

Section BalancedTreeRuns.

Lemma avl_insert_present (t : AVL.tree) (k : Z) :
  AVL.ordered t -> AVL.avl t -> In k (AVL.in_order t) ->
  AVL.insert t k = Done t 0.
Proof.
  induction t as [|d l IHl r IHr h]; [simpl; tauto|].
  intros (Ol & Or & Fl & Fr) Ha Hin. pose proof Ha as (Al & Ar & _).
  cbn [AVL.insert AVL.in_order] in *. rewrite Z.gtb_ltb.
  apply in_app_or in Hin.
  destruct (Z.ltb_spec k d) as [Hlt|Hge].
  - rewrite IHl; auto.
    + cbn [AVL.bind]. rewrite insert_rebalance_valid by assumption.
      reflexivity.
    + destruct Hin as [Hin|[Heq|Hin]]; auto; [lia|].
      exfalso. eapply Forall_gt_not_in; [exact Fr| |exact Hin]. lia.
  - destruct (Z.ltb_spec d k) as [Hgt|Hle]; [|reflexivity].
    rewrite IHr; auto.
    + cbn [AVL.bind]. rewrite insert_rebalance_valid by assumption.
      reflexivity.
    + destruct Hin as [Hin|[Heq|Hin]]; auto; [|lia].
      exfalso. eapply Forall_lt_not_in; [exact Fl| |exact Hin]. lia.
Qed.

Lemma avl_remove_absent (t : AVL.tree) (k : Z) :
  AVL.avl t -> ~ In k (AVL.in_order t) -> AVL.remove t k = Done t 0.
Proof.
  induction t as [|d l IHl r IHr h]; [reflexivity|].
  intros Ha Hn. pose proof Ha as (Al & Ar & _).
  cbn [AVL.remove AVL.in_order] in *. rewrite Z.gtb_ltb.
  assert (Hl : ~ In k (AVL.in_order l)) by (rewrite in_app_iff in Hn; tauto).
  assert (Hr : ~ In k (AVL.in_order r))
    by (rewrite in_app_iff in Hn; simpl in Hn; tauto).
  assert (Hd : k <> d)
    by (intros ->; apply Hn, in_or_app; right; left; reflexivity).
  destruct (Z.ltb_spec k d).
  - rewrite IHl by assumption. cbn [AVL.bind].
    rewrite remove_rebalance_valid by assumption. reflexivity.
  - destruct (Z.ltb_spec d k); [|lia].
    rewrite IHr by assumption. cbn [AVL.bind].
    rewrite remove_rebalance_valid by assumption. reflexivity.
Qed.

Lemma avl_search_found (t : AVL.tree) (k : Z) :
  AVL.ordered t -> In k (AVL.in_order t) ->
  exists l r h, AVL.search t k = AVL.Node k l r h.
Proof.
  induction t as [|d l IHl r IHr h]; simpl; [tauto|].
  intros (Ol & Or & Fl & Fr) Hin. apply in_app_or in Hin.
  destruct (Z.eqb_spec d k) as [->|Hne]; [eauto|].
  destruct (Z.ltb_spec k d) as [Hlt|Hge].
  - apply IHl; auto. destruct Hin as [Hin|[Heq|Hin]]; auto; [lia|].
    exfalso. eapply Forall_gt_not_in; [exact Fr| |exact Hin]. lia.
  - apply IHr; auto. destruct Hin as [Hin|[Heq|Hin]]; auto; [|lia].
    exfalso. eapply Forall_lt_not_in; [exact Fl| |exact Hin]. lia.
Qed.

Lemma avl_search_absent (t : AVL.tree) (k : Z) :
  ~ In k (AVL.in_order t) -> AVL.search t k = AVL.Nil.
Proof.
  induction t as [|d l IHl r IHr h]; simpl; [reflexivity|].
  intros Hn. rewrite in_app_iff in Hn. simpl in Hn.
  destruct (Z.eqb_spec d k); [tauto|].
  destruct (Z.ltb_spec k d); [apply IHl|apply IHr]; tauto.
Qed.

Lemma avl_valid_nil : AVL.valid AVL.Nil.
Proof. split; exact I. Qed.

(** One public mutation of a valid tree returns a valid tree whose
    traversal is the mutated key sequence. *)
Lemma avl_step_spec (t : AVL.tree) (o : op) :
  AVL.valid t ->
  exists t' n,
    AVL.step t o = Done t' n /\ AVL.valid t' /\
    AVL.in_order t' = seq_step (AVL.in_order t) o.
Proof.
  intros [Ho Ha]. destruct o as [k|k]; cbn [AVL.step seq_step].
  - destruct (avl_insert_spec t k Ho Ha) as (t' & n & E & A' & I' & _).
    exists t', n. repeat split; auto.
    apply avl_ordered_ascending. rewrite I'.
    apply ascending_set_insert, avl_ordered_ascending, Ho.
  - destruct (avl_remove_spec t k Ho Ha) as (t' & n & E & A' & I' & _).
    exists t', n. repeat split; auto.
    apply avl_ordered_ascending. rewrite I'.
    apply ascending_delete_key, avl_ordered_ascending, Ho.
Qed.

Lemma avl_run_spec (ops : list op) (t : AVL.tree) :
  AVL.valid t ->
  exists t' n,
    AVL.run ops t = Done t' n /\ AVL.valid t' /\
    AVL.in_order t' = fold_left seq_step ops (AVL.in_order t).
Proof.
  revert t. induction ops as [|o ops IH]; intros t Hv.
  - exists t, O. split; [reflexivity|]. split; [exact Hv|reflexivity].
  - destruct (avl_step_spec t o Hv) as (t1 & n1 & E1 & V1 & I1).
    destruct (IH t1 V1) as (t2 & n2 & E2 & V2 & I2).
    exists t2, (n1 + n2)%nat. cbn [AVL.run fold_left].
    rewrite E1. cbn [AVL.bind]. rewrite E2, I2, I1. split; [reflexivity|]. split; [exact V2|reflexivity].
Qed.

Lemma avl_reachable_valid (t : AVL.tree) : AVL.reachable t -> AVL.valid t.
Proof.
  intros (ops & n & E).
  destruct (avl_run_spec ops AVL.Nil avl_valid_nil) as (t' & n' & E' & V & _).
  rewrite E in E'. injection E' as -> _. exact V.
Qed.

Lemma bst_step_in_order (t : BST.tree) (o : op) :
  BST.ordered t ->
  BST.in_order (BST.step t o) = seq_step (BST.in_order t) o.
Proof.
  destruct o; cbn [BST.step seq_step];
    [apply bst_insert_in_order|apply bst_remove_in_order].
Qed.

Lemma bst_run_in_order (ops : list op) (t : BST.tree) :
  BST.ordered t ->
  BST.in_order (BST.run ops t) = fold_left seq_step ops (BST.in_order t).
Proof.
  revert t. induction ops as [|o ops IH]; intros t Ho; [reflexivity|].
  cbn [BST.run fold_left]. fold (BST.run ops (BST.step t o)).
  rewrite IH by (apply bst_step_ordered, Ho).
  rewrite bst_step_in_order by assumption. reflexivity.
Qed.

Lemma avl_factors_bounded (t : AVL.tree) :
  AVL.avl t -> AVL.factors_bounded t.
Proof.
  induction t as [|d l IHl r IHr h]; [trivial|].
  cbn [AVL.avl AVL.factors_bounded AVL.balance_factor].
  intros (Al & Ar & Hh & Hb). auto.
Qed.

Lemma avl_leaves_one (t : AVL.tree) :
  AVL.heights_stored t -> AVL.leaves_one t.
Proof.
  induction t as [|d l IHl r IHr h]; [trivial|].
  cbn [AVL.heights_stored]. intros (Hl & Hr & Hh).
  destruct l as [|ld ll lr lh]; [destruct r as [|rd rl rr rh]|].
  - cbn [AVL.leaves_one]. cbn [AVL.height] in Hh. lia.
  - cbn [AVL.leaves_one]. split; [exact I|]. apply IHr, Hr.
  - change (AVL.leaves_one (AVL.Node ld ll lr lh) /\ AVL.leaves_one r). auto.
Qed.

End BalancedTreeRuns.

(** * The outputs [main] documents

    [BinarySearchTree.cpp] states in comments what its [main] prints; the
    embedding computes the same sequences. *)

Section DocumentedOutputs.

Lemma bst_main_traversals :
  let t := BST.run (map Insert [50; 30; 20; 40; 70; 60; 80]) BST.Nil in
  BST.in_order t = [20; 30; 40; 50; 60; 70; 80] /\
  BST.pre_order t = [50; 30; 20; 40; 70; 60; 80] /\
  BST.post_order t = [20; 40; 30; 60; 80; 70; 50].
Proof. repeat split. Qed.

Lemma bst_main_removals :
  BST.in_order
    (BST.run (map Insert [50; 30; 20; 40; 70; 60; 80]
              ++ map Remove [20; 30; 50]) BST.Nil)
  = [40; 60; 70; 80].
Proof. reflexivity. Qed.

Lemma avl_main_final :
  exists t n,
    AVL.run (map Insert [30; 20; 40; 10; 25; 35; 50; 5; 55; 60]
             ++ map Remove [20; 30]) AVL.Nil = Done t n /\
    AVL.in_order t = [5; 10; 25; 35; 40; 50; 55; 60].
Proof. do 2 eexists. split; reflexivity. Qed.

End DocumentedOutputs.

(** * The properties of the specification *)

Section Invariants.

(** C1 (ordering invariant).  Whatever sequence of [insert] and
    [remove] calls is applied to an empty tree, the in-order traversal
    of the result is strictly ascending and lists no key twice; this
    holds for the plain tree and for the self-balancing tree, whose
    calls all return. *)
Theorem ordering_invariant (ops : list op) :
  (ascending (BST.in_order (BST.run ops BST.Nil)) /\
   NoDup (BST.in_order (BST.run ops BST.Nil))) /\
  (exists t n,
      AVL.run ops AVL.Nil = Done t n /\
      ascending (AVL.in_order t) /\ NoDup (AVL.in_order t)).
Proof.
  split.
  - assert (H : ascending (BST.in_order (BST.run ops BST.Nil))).
    { apply bst_ordered_ascending, bst_run_ordered. exact I. }
    split; [exact H|apply ascending_NoDup, H].
  - destruct (avl_run_spec ops AVL.Nil avl_valid_nil) as (t & n & E & [Ho _] & _).
    exists t, n. apply avl_ordered_ascending in Ho.
    repeat split; auto using ascending_NoDup.
Qed.

(** C2 (balance invariant).  After every sequence of [insert] and
    [remove] calls on an empty self-balancing tree, the heights of the
    two subtrees of every node differ by at most one, both as the shape
    of the tree has them and as [balance_factor] reads them from the
    stored heights. *)
Theorem balance_invariant (ops : list op) :
  exists t n,
    AVL.run ops AVL.Nil = Done t n /\
    AVL.balanced t /\ AVL.factors_bounded t.
Proof.
  destruct (avl_run_spec ops AVL.Nil avl_valid_nil) as (t & n & E & [_ Ha] & _).
  exists t, n. auto using avl_balanced, avl_factors_bounded.
Qed.

(** C5 (stored heights).  In every self-balancing tree reachable from
    the empty one, each node stores one plus the larger of its
    children's heights, an absent child counting 0; so every leaf
    stores 1. *)
Theorem stored_heights_invariant (t : AVL.tree) :
  AVL.reachable t -> AVL.heights_stored t /\ AVL.leaves_one t.
Proof.
  intros Hr. apply avl_reachable_valid in Hr. destruct Hr as [_ Ha].
  apply avl_heights_stored in Ha. split; [exact Ha|].
  apply avl_leaves_one, Ha.
Qed.

Lemma sample_avl_reachable : AVL.reachable sample_avl.
Proof. exists [Insert 20; Insert 10; Insert 30], O. reflexivity. Defined.

Lemma stored_heights_invariant_witness :
  AVL.reachable sample_avl /\
  AVL.heights_stored sample_avl /\ AVL.leaves_one sample_avl.
Proof.
  split; [exact sample_avl_reachable|].
  apply (stored_heights_invariant sample_avl). exact sample_avl_reachable.
Defined.

(** C6 (rotations are safe).  On a reachable self-balancing tree every
    [insert] and every [remove] returns: no rotation is ever invoked on
    a node that lacks the child it promotes, and no other absent child
    is read. *)
Theorem rotations_never_fault (t : AVL.tree) (k : Z) :
  AVL.reachable t ->
  ((exists t' n, AVL.insert t k = Done t' n) /\
   (exists t' n, AVL.remove t k = Done t' n)) /\
  (forall f, AVL.insert t k <> Fatal f /\ AVL.remove t k <> Fatal f).
Proof.
  intros Hr. apply avl_reachable_valid in Hr. destruct Hr as [Ho Ha].
  destruct (avl_insert_spec t k Ho Ha) as (ti & ni & Ei & _).
  destruct (avl_remove_spec t k Ho Ha) as (tr & nr & Er & _).
  split; [split; eauto|].
  intros f. rewrite Ei, Er. split; discriminate.
Qed.

Lemma leaning_right_reachable : AVL.reachable leaning_right.
Proof. exists [Insert 10; Insert 20], O. reflexivity. Defined.

Lemma heavy_right_reachable : AVL.reachable heavy_right.
Proof. exists [Insert 20; Insert 10; Insert 30; Insert 25], O. reflexivity. Defined.

(** The theorem at an insertion that rotates left once and at a removal
    that rotates twice (right-left case). *)
Lemma rotations_never_fault_witness :
  (AVL.reachable leaning_right /\
   exists t' n, AVL.insert leaning_right 30 = Done t' n /\ n = 1%nat) /\
  (AVL.reachable heavy_right /\
   exists t' n, AVL.remove heavy_right 10 = Done t' n /\ n = 2%nat).
Proof.
  split; (split; [first [exact leaning_right_reachable
                        |exact heavy_right_reachable]|]).
  - destruct (rotations_never_fault leaning_right 30 leaning_right_reachable)
      as [[(t' & n & E) _] _].
    exists t', n. split; [exact E|].
    vm_compute in E. injection E as _ E. symmetry. exact E.
  - destruct (rotations_never_fault heavy_right 10 heavy_right_reachable)
      as [[_ (t' & n & E)] _].
    exists t', n. split; [exact E|].
    vm_compute in E. injection E as _ E. symmetry. exact E.
Defined.

End Invariants.

Section Contracts.

(** C3 (insert).  On a valid tree, inserting an absent key yields the
    in-order sequence with the key put at its sorted place, and
    inserting a key already present returns the very same tree, stored
    heights included; for the plain and for the self-balancing tree. *)
Theorem insert_contract (k : Z) (tb : BST.tree) (ta : AVL.tree) :
  BST.ordered tb -> AVL.valid ta ->
  ((~ In k (BST.in_order tb) ->
    BST.in_order (BST.insert tb k) = sorted_insert k (BST.in_order tb)) /\
   (In k (BST.in_order tb) -> BST.insert tb k = tb)) /\
  ((~ In k (AVL.in_order ta) ->
    exists t' n,
      AVL.insert ta k = Done t' n /\
      AVL.in_order t' = sorted_insert k (AVL.in_order ta)) /\
   (In k (AVL.in_order ta) -> AVL.insert ta k = Done ta 0)).
Proof.
  intros Hb [Ho Ha]. split; split.
  - intros Hn. rewrite bst_insert_in_order by assumption.
    apply set_insert_absent, Hn.
  - apply bst_insert_present, Hb.
  - intros Hn.
    destruct (avl_insert_spec ta k Ho Ha) as (t' & n & E & _ & Hi & _).
    exists t', n. split; [exact E|].
    rewrite Hi. apply set_insert_absent, Hn.
  - apply avl_insert_present; assumption.
Qed.

Lemma sample_bst_ordered : BST.ordered sample_bst.
Proof. simpl. repeat (constructor; try lia). Defined.

Lemma sample_avl_valid : AVL.valid sample_avl.
Proof.
  split; cbn [sample_avl AVL.ordered AVL.avl AVL.in_order AVL.height app].
  - repeat (constructor; try lia).
  - repeat split; lia.
Defined.

Lemma insert_contract_witness :
  (BST.in_order (BST.insert sample_bst 25) =
     sorted_insert 25 (BST.in_order sample_bst) /\
   exists t' n,
     AVL.insert sample_avl 25 = Done t' n /\
     AVL.in_order t' = sorted_insert 25 (AVL.in_order sample_avl)) /\
  (BST.insert sample_bst 30 = sample_bst /\
   AVL.insert sample_avl 30 = Done sample_avl 0).
Proof.
  destruct (insert_contract 25 sample_bst sample_avl
              sample_bst_ordered sample_avl_valid) as [[Hb _] [Ha _]].
  destruct (insert_contract 30 sample_bst sample_avl
              sample_bst_ordered sample_avl_valid) as [[_ Hb'] [_ Ha']].
  split; split; [apply Hb|apply Ha|apply Hb'|apply Ha']; simpl; lia.
Defined.

(** C4 (remove).  On a valid tree, removing a key that is present
    yields the in-order sequence without it, and removing an absent key
    returns the very same tree, stored heights included; for the plain
    and for the self-balancing tree. *)
Theorem remove_contract (k : Z) (tb : BST.tree) (ta : AVL.tree) :
  BST.ordered tb -> AVL.valid ta ->
  ((In k (BST.in_order tb) ->
    BST.in_order (BST.remove tb k) = delete_key k (BST.in_order tb)) /\
   (~ In k (BST.in_order tb) -> BST.remove tb k = tb)) /\
  ((In k (AVL.in_order ta) ->
    exists t' n,
      AVL.remove ta k = Done t' n /\
      AVL.in_order t' = delete_key k (AVL.in_order ta)) /\
   (~ In k (AVL.in_order ta) -> AVL.remove ta k = Done ta 0)).
Proof.
  intros Hb [Ho Ha]. split; split.
  - intros _. apply bst_remove_in_order, Hb.
  - apply bst_remove_absent.
  - intros _.
    destruct (avl_remove_spec ta k Ho Ha) as (t' & n & E & _ & Hi & _).
    exists t', n. split; assumption.
  - apply avl_remove_absent, Ha.
Qed.

Lemma remove_contract_witness :
  (BST.in_order (BST.remove sample_bst 20) =
     delete_key 20 (BST.in_order sample_bst) /\
   exists t' n,
     AVL.remove sample_avl 20 = Done t' n /\
     AVL.in_order t' = delete_key 20 (AVL.in_order sample_avl)) /\
  (BST.remove sample_bst 25 = sample_bst /\
   AVL.remove sample_avl 25 = Done sample_avl 0).
Proof.
  destruct (remove_contract 20 sample_bst sample_avl
              sample_bst_ordered sample_avl_valid) as [[Hb _] [Ha _]].
  destruct (remove_contract 25 sample_bst sample_avl
              sample_bst_ordered sample_avl_valid) as [[_ Hb'] [_ Ha']].
  split; split; [apply Hb|apply Ha|apply Hb'|apply Ha']; simpl; lia.
Defined.

Lemma in_fold_inserts (ks l : list Z) (x : Z) :
  In x (fold_left seq_step (map Insert ks) l) <-> In x ks \/ In x l.
Proof.
  revert l. induction ks as [|k ks IH]; intros l; simpl; [tauto|].
  rewrite IH, in_set_insert. intuition congruence.
Qed.

Lemma in_fold_removes (ks l : list Z) (x : Z) :
  In x (fold_left seq_step (map Remove ks) l) <-> In x l /\ ~ In x ks.
Proof.
  revert l. induction ks as [|k ks IH]; intros l; simpl; [tauto|].
  rewrite IH, in_delete_key. intuition congruence.
Qed.

Lemma fold_round_trip (ks ks' : list Z) :
  Permutation ks ks' ->
  fold_left seq_step (map Insert ks ++ map Remove ks') [] = [].
Proof.
  intros Hp. rewrite fold_left_app.
  destruct (fold_left seq_step (map Remove ks') _) as [|x rest] eqn:E;
    [reflexivity|].
  assert (Hx : In x (x :: rest)) by (left; reflexivity).
  rewrite <- E in Hx. apply in_fold_removes in Hx. destruct Hx as [Hx Hn].
  apply in_fold_inserts in Hx. destruct Hx as [Hx|[]].
  exfalso. apply Hn. eapply Permutation_in; eassumption.
Qed.

(** C7 (round trip).  Inserting distinct keys into an empty tree and
    then removing all of them, in whatever order, leaves the root
    absent; for the plain and for the self-balancing tree. *)
Theorem insert_all_remove_all (ks ks' : list Z) :
  NoDup ks -> Permutation ks ks' ->
  BST.run (map Insert ks ++ map Remove ks') BST.Nil = BST.Nil /\
  exists n, AVL.run (map Insert ks ++ map Remove ks') AVL.Nil = Done AVL.Nil n.
Proof.
  intros _ Hp. split.
  - apply bst_in_order_nil. rewrite bst_run_in_order by exact I.
    apply fold_round_trip, Hp.
  - destruct (avl_run_spec (map Insert ks ++ map Remove ks') AVL.Nil
                avl_valid_nil) as (t & n & E & _ & Hi).
    simpl in Hi. rewrite fold_round_trip in Hi by assumption.
    apply avl_in_order_nil in Hi. subst t. exists n. exact E.
Qed.

Lemma insert_all_remove_all_witness :
  BST.run (map Insert [2; 1; 3] ++ map Remove [3; 1; 2]) BST.Nil = BST.Nil /\
  exists n,
    AVL.run (map Insert [2; 1; 3] ++ map Remove [3; 1; 2]) AVL.Nil
    = Done AVL.Nil n.
Proof.
  apply (insert_all_remove_all [2; 1; 3] [3; 1; 2]).
  - repeat constructor; simpl; lia.
  - exact (Permutation_rev [2; 1; 3]).
Defined.

End Contracts.

Section Demonstration.

(** The tree the seven insertions of [main] build: perfectly balanced,
    with 30 at the root already. *)
Lemma demo_before_5 :
  AVL.run (map Insert demo_keys) AVL.Nil =
  Done
    (AVL.Node 30
       (AVL.Node 20 (AVL.Node 10 AVL.Nil AVL.Nil 1)
                    (AVL.Node 25 AVL.Nil AVL.Nil 1) 2)
       (AVL.Node 40 (AVL.Node 35 AVL.Nil AVL.Nil 1)
                    (AVL.Node 50 AVL.Nil AVL.Nil 1) 2)
       3)
    0.
Proof. reflexivity. Qed.

(** C8, as stated: the insertion of 5 would have to invoke exactly one
    rotation.  It invokes none, so the scenario with one rotation does
    not describe the code. *)
Lemma demo_one_rotation_refuted : ~ demo_after_5 1.
Proof.
  intros (t0 & n0 & t & E0 & E & _).
  rewrite demo_before_5 in E0. injection E0 as <- _.
  vm_compute in E. discriminate E.
Qed.

(** C8, amended.  After inserting 30, 20, 40, 10, 25, 35, 50 and then
    5, the in-order traversal is 5, 10, 20, 25, 30, 35, 40, 50, the tree
    is balanced and its root is 30, as it was before the insertion of 5;
    that insertion invokes no rotation. *)
Theorem demo_no_rotation : demo_root_kept 0.
Proof.
  unfold demo_root_kept. rewrite demo_before_5.
  do 3 eexists. split; [reflexivity|]. split; [reflexivity|].
  split; [reflexivity|].
  split; [reflexivity|]. split; [|reflexivity].
  cbn [AVL.balanced AVL.depth]. repeat split; try exact I; vm_compute; discriminate.
Qed.

End Demonstration.

Section Agreement.

Lemma answers_agree (tb : BST.tree) (ta : AVL.tree) (k : Z) :
  BST.ordered tb -> AVL.ordered ta ->
  BST.in_order tb = AVL.in_order ta ->
  AVL.answer_of (AVL.search ta k) = BST.answer_of (BST.search tb k).
Proof.
  intros Hb Ha He.
  destruct (in_dec Z.eq_dec k (BST.in_order tb)) as [Hin|Hn].
  - destruct (bst_search_found tb k Hb Hin) as (l & r & ->).
    rewrite He in Hin.
    destruct (avl_search_found ta k Ha Hin) as (l' & r' & h' & ->).
    reflexivity.
  - rewrite (bst_search_absent tb k Hn).
    rewrite He in Hn. rewrite (avl_search_absent ta k Hn). reflexivity.
Qed.

Lemma traces_agree (calls : list call) (tb : BST.tree) (ta : AVL.tree) :
  BST.ordered tb -> AVL.valid ta ->
  BST.in_order tb = AVL.in_order ta ->
  exists n, AVL.trace calls ta = Done (BST.trace calls tb) n.
Proof.
  revert tb ta. induction calls as [|c calls IH]; intros tb ta Hb Hv He.
  - exists O. reflexivity.
  - cbn [AVL.trace BST.trace]. destruct c as [o|k]; cbn [AVL.perform BST.perform].
    + destruct (avl_step_spec ta o Hv) as (ta' & n1 & E1 & Hv' & Hi).
      destruct (IH (BST.step tb o) ta') as (n2 & E2).
      * apply bst_step_ordered, Hb.
      * exact Hv'.
      * rewrite Hi, bst_step_in_order, He by assumption. reflexivity.
      * rewrite E1. cbn [AVL.bind AVL.ret fst snd]. rewrite E2.
        cbn [AVL.bind AVL.ret].
        rewrite Hi, bst_step_in_order, He by assumption.
        eexists. reflexivity.
    + destruct (IH tb ta Hb Hv He) as (n2 & E2).
      cbn [AVL.bind AVL.ret fst snd]. rewrite E2.
      rewrite (answers_agree tb ta k Hb (proj1 Hv) He), He.
      eexists. reflexivity.
Qed.

(** C9 (the two classes agree).  For every sequence of [insert],
    [remove] and [search] calls issued to an empty plain tree and to an
    empty self-balancing tree, the observations coincide call by call:
    the same in-order sequence after each call, and each [search] finds
    a node in one exactly when it does in the other, holding the same
    key. *)
Theorem variants_agree (calls : list call) :
  exists n, AVL.trace calls AVL.Nil = Done (BST.trace calls BST.Nil) n.
Proof.
  apply traces_agree; [exact I|exact avl_valid_nil|reflexivity].
Qed.

End Agreement.

Section Frame.

Lemma key_at_nil (q : list BST.dir) : BST.key_at q BST.Nil = None.
Proof. destruct q as [|[|] q]; reflexivity. Qed.

(** Grafting at an absent position keeps every key where it was. *)
Lemma graft_keeps_keys (p : list BST.dir) (s t : BST.tree) :
  BST.subtree_at p t = Some BST.Nil ->
  forall q d, BST.key_at q t = Some d -> BST.key_at q (BST.graft p s t) = Some d.
Proof.
  revert t. induction p as [|c p IH]; intros t Hp q d Hq.
  - simpl in Hp. injection Hp as ->. rewrite key_at_nil in Hq. discriminate.
  - destruct t as [|e l r]; [destruct c; discriminate|].
    destruct c; simpl in Hp; cbn [BST.graft];
      (destruct q as [|[|] q]; [exact Hq| |]); unfold BST.key_at in *;
      cbn [BST.subtree_at] in *; try exact Hq;
      apply (IH _ Hp q d Hq).
Qed.

Lemma graft_leaf_size (p : list BST.dir) (k : Z) (t : BST.tree) :
  BST.subtree_at p t = Some BST.Nil ->
  BST.size (BST.graft p (BST.Node k BST.Nil BST.Nil) t) = S (BST.size t).
Proof.
  revert t. induction p as [|c p IH]; intros t Hp.
  - simpl in Hp. injection Hp as ->. reflexivity.
  - destruct t as [|e l r]; [destruct c; discriminate|].
    destruct c; simpl in Hp; cbn [BST.graft BST.size]; rewrite (IH _ Hp); lia.
Qed.

Lemma descent_unique (k : Z) (p p' : list BST.dir) (t : BST.tree) :
  BST.descent k p t -> BST.descent k p' t -> p = p'.
Proof.
  revert p p'. induction t as [|d l IHl r IHr]; intros p p' H H'.
  - destruct p as [|[|] p]; destruct p' as [|[|] p']; simpl in *; tauto.
  - destruct p as [|[|] p]; destruct p' as [|[|] p']; simpl in *;
      try tauto; try lia; f_equal; [apply IHl|apply IHr]; tauto.
Qed.

Lemma insert_is_graft (t : BST.tree) (k : Z) :
  ~ In k (BST.in_order t) ->
  exists p,
    BST.descent k p t /\
    BST.subtree_at p t = Some BST.Nil /\
    BST.insert t k = BST.graft p (BST.Node k BST.Nil BST.Nil) t.
Proof.
  induction t as [|d l IHl r IHr]; intros Hn.
  - exists []. repeat split.
  - cbn [BST.in_order] in Hn. rewrite in_app_iff in Hn. simpl in Hn.
    cbn [BST.insert]. rewrite Z.gtb_ltb.
    destruct (Z.ltb_spec k d) as [Hlt|Hge].
    + destruct IHl as (p & Hd & Hs & Hi); [tauto|].
      exists (BST.L :: p). cbn [BST.descent BST.subtree_at BST.graft].
      rewrite Hi. auto.
    + destruct (Z.ltb_spec d k) as [Hgt|Hle].
      * destruct IHr as (p & Hd & Hs & Hi); [tauto|].
        exists (BST.R :: p). cbn [BST.descent BST.subtree_at BST.graft].
        rewrite Hi. auto.
      * exfalso. apply Hn. right. left. lia.
Qed.

(** C10 (frame of the plain insert).  Inserting an absent key into the
    plain tree puts one new leaf with that key at the absent position at
    which the descent by comparisons ends, a position that is unique;
    the tree is otherwise the same: every position that held a key
    holds the same key afterwards, so no node changes its parent or its
    children, and the number of nodes grows by exactly one. *)
Theorem insert_adds_one_leaf (t : BST.tree) (k : Z) :
  ~ In k (BST.in_order t) ->
  exists p,
    (BST.descent k p t /\ forall p', BST.descent k p' t -> p' = p) /\
    BST.subtree_at p t = Some BST.Nil /\
    BST.insert t k = BST.graft p (BST.Node k BST.Nil BST.Nil) t /\
    BST.subtree_at p (BST.insert t k) = Some (BST.Node k BST.Nil BST.Nil) /\
    (forall q d, BST.key_at q t = Some d ->
                 BST.key_at q (BST.insert t k) = Some d) /\
    BST.size (BST.insert t k) = S (BST.size t).
Proof.
  intros Hn. destruct (insert_is_graft t k Hn) as (p & Hd & Hs & Hi).
  exists p. split; [split; [exact Hd|]|].
  - intros p' Hd'. apply (descent_unique k p' p t); assumption.
  - split; [exact Hs|]. split; [exact Hi|]. rewrite Hi. split; [|split].
    + clear Hi Hd Hn. revert t Hs. induction p as [|c p IH]; intros t Hs.
      * reflexivity.
      * destruct t as [|e l r]; [destruct c; discriminate|].
        destruct c; simpl in Hs; cbn [BST.graft BST.subtree_at]; apply IH, Hs.
    + apply graft_keeps_keys, Hs.
    + apply graft_leaf_size, Hs.
Qed.

Lemma insert_adds_one_leaf_witness :
  exists p,
    BST.subtree_at p sample_bst = Some BST.Nil /\
    BST.insert sample_bst 25 =
      BST.graft p (BST.Node 25 BST.Nil BST.Nil) sample_bst.
Proof.
  destruct (insert_adds_one_leaf sample_bst 25) as (p & _ & Hs & Hi & _).
  - simpl. lia.
  - exists p. split; assumption.
Defined.

End Frame.

(** * Further properties of the code *)

Section Lookup.

Lemma bst_search_sound (t : BST.tree) (k d : Z) (l r : BST.tree) :
  BST.search t k = BST.Node d l r -> d = k /\ In k (BST.in_order t).
Proof.
  induction t as [|e tl IHl tr IHr]; simpl; [discriminate|].
  destruct (Z.eqb_spec e k) as [->|Hne].
  - intros H. injection H as -> _ _. split; [reflexivity|].
    apply in_or_app. right. left. reflexivity.
  - destruct (Z.ltb_spec k e); intros Hs.
    + destruct (IHl Hs) as [-> Hin]. split; [reflexivity|].
      apply in_or_app. left. exact Hin.
    + destruct (IHr Hs) as [-> Hin]. split; [reflexivity|].
      apply in_or_app. right. right. exact Hin.
Qed.

Lemma avl_search_sound (t : AVL.tree) (k d h : Z) (l r : AVL.tree) :
  AVL.search t k = AVL.Node d l r h -> d = k /\ In k (AVL.in_order t).
Proof.
  induction t as [|e tl IHl tr IHr eh]; simpl; [discriminate|].
  destruct (Z.eqb_spec e k) as [->|Hne].
  - intros H. injection H as -> _ _ _. split; [reflexivity|].
    apply in_or_app. right. left. reflexivity.
  - destruct (Z.ltb_spec k e); intros Hs.
    + destruct (IHl Hs) as [-> Hin]. split; [reflexivity|].
      apply in_or_app. left. exact Hin.
    + destruct (IHr Hs) as [-> Hin]. split; [reflexivity|].
      apply in_or_app. right. right. exact Hin.
Qed.

(** What a caller reads off a search in an ordered tree. *)
Lemma bst_answer_spec (t : BST.tree) (k : Z) :
  BST.ordered t ->
  BST.answer_of (BST.search t k) =
  if in_dec Z.eq_dec k (BST.in_order t) then Found k else NotFound.
Proof.
  intros Ho. destruct (in_dec Z.eq_dec k (BST.in_order t)) as [Hin|Hn].
  - destruct (bst_search_found t k Ho Hin) as (l & r & ->). reflexivity.
  - rewrite bst_search_absent by assumption. reflexivity.
Qed.

Lemma avl_answer_spec (t : AVL.tree) (k : Z) :
  AVL.ordered t ->
  AVL.answer_of (AVL.search t k) =
  if in_dec Z.eq_dec k (AVL.in_order t) then Found k else NotFound.
Proof.
  intros Ho. destruct (in_dec Z.eq_dec k (AVL.in_order t)) as [Hin|Hn].
  - destruct (avl_search_found t k Ho Hin) as (l & r & h & ->). reflexivity.
  - rewrite avl_search_absent by assumption. reflexivity.
Qed.

(** X1.  Whatever the tree, ordered or not, [search] returns either
    [nullptr] or a node that holds exactly the key asked for, and that
    key is then one the traversal lists: a search never reports a key
    the tree does not hold.  Both classes. *)
Theorem search_never_invents (k : Z) (tb : BST.tree) (ta : AVL.tree) :
  (BST.search tb k = BST.Nil \/
   exists l r, BST.search tb k = BST.Node k l r /\ In k (BST.in_order tb)) /\
  (AVL.search ta k = AVL.Nil \/
   exists l r h,
     AVL.search ta k = AVL.Node k l r h /\ In k (AVL.in_order ta)).
Proof.
  split.
  - destruct (BST.search tb k) as [|d l r] eqn:E; [left; reflexivity|].
    destruct (bst_search_sound tb k d l r E) as [-> Hin].
    right. exists l, r. split; [reflexivity|exact Hin].
  - destruct (AVL.search ta k) as [|d l r h] eqn:E; [left; reflexivity|].
    destruct (avl_search_sound ta k d h l r E) as [-> Hin].
    right. exists l, r, h. split; [reflexivity|exact Hin].
Qed.

(** X2.  In a tree that satisfies the ordering invariant, [search]
    decides membership: it returns a node with the key exactly when the
    in-order traversal lists the key, and [nullptr] exactly when it does
    not.  Both classes. *)
Theorem search_decides_membership (k : Z) (tb : BST.tree) (ta : AVL.tree) :
  BST.ordered tb -> AVL.ordered ta ->
  (((exists l r, BST.search tb k = BST.Node k l r) <-> In k (BST.in_order tb)) /\
   (BST.search tb k = BST.Nil <-> ~ In k (BST.in_order tb))) /\
  (((exists l r h, AVL.search ta k = AVL.Node k l r h)
    <-> In k (AVL.in_order ta)) /\
   (AVL.search ta k = AVL.Nil <-> ~ In k (AVL.in_order ta))).
Proof.
  intros Hb Ha. split; split; split.
  - intros (l & r & E). apply (bst_search_sound tb k k l r E).
  - apply bst_search_found, Hb.
  - intros E Hin. destruct (bst_search_found tb k Hb Hin) as (l & r & E').
    congruence.
  - apply bst_search_absent.
  - intros (l & r & h & E). apply (avl_search_sound ta k k h l r E).
  - apply avl_search_found, Ha.
  - intros E Hin. destruct (avl_search_found ta k Ha Hin) as (l & r & h & E').
    congruence.
  - apply avl_search_absent.
Qed.

Lemma search_decides_membership_witness :
  (exists l r, BST.search sample_bst 30 = BST.Node 30 l r) /\
  BST.search sample_bst 25 = BST.Nil /\
  (exists l r h, AVL.search sample_avl 10 = AVL.Node 10 l r h) /\
  AVL.search sample_avl 25 = AVL.Nil.
Proof.
  pose proof (search_decides_membership 30 sample_bst sample_avl
                sample_bst_ordered (proj1 sample_avl_valid)) as [[F30 _] _].
  pose proof (search_decides_membership 25 sample_bst sample_avl
                sample_bst_ordered (proj1 sample_avl_valid)) as [[_ N25] [_ N25']].
  pose proof (search_decides_membership 10 sample_bst sample_avl
                sample_bst_ordered (proj1 sample_avl_valid)) as [_ [F10 _]].
  split; [|split; [|split]].
  - apply F30. simpl. lia.
  - apply N25. simpl. lia.
  - apply F10. simpl. lia.
  - apply N25'. simpl. lia.
Defined.

Lemma bst_insert_search (t : BST.tree) (k : Z) :
  exists l r, BST.search (BST.insert t k) k = BST.Node k l r.
Proof.
  induction t as [|d l IHl r IHr]; cbn [BST.insert].
  - cbn [BST.search]. rewrite Z.eqb_refl. eauto.
  - rewrite Z.gtb_ltb. destruct (Z.ltb_spec k d) as [Hlt|Hge].
    + cbn [BST.search]. destruct (Z.eqb_spec d k); [lia|].
      destruct (Z.ltb_spec k d); [exact IHl|lia].
    + destruct (Z.ltb_spec d k) as [Hgt|Hle]; cbn [BST.search].
      * destruct (Z.eqb_spec d k); [lia|].
        destruct (Z.ltb_spec k d); [lia|exact IHr].
      * destruct (Z.eqb_spec d k); [subst; eauto|lia].
Qed.

(** X3.  A key just inserted is found.  For the plain tree this needs
    no invariant at all, since [search] retraces the comparisons of
    [insert]; for the self-balancing tree, whose rotations move nodes, it
    holds on valid trees. *)
Theorem insert_then_search (k : Z) (tb : BST.tree) (ta : AVL.tree) :
  AVL.valid ta ->
  (exists l r, BST.search (BST.insert tb k) k = BST.Node k l r) /\
  (exists t' n l r h,
      AVL.insert ta k = Done t' n /\ AVL.search t' k = AVL.Node k l r h).
Proof.
  intros [Ho Ha]. split; [apply bst_insert_search|].
  destruct (avl_step_spec ta (Insert k) (conj Ho Ha))
    as (t' & n & E & [Ho' _] & Hi).
  destruct (avl_search_found t' k Ho') as (l & r & h & Es).
  - rewrite Hi. apply in_set_insert. left. reflexivity.
  - exists t', n, l, r, h. split; assumption.
Qed.

Lemma insert_then_search_witness :
  (exists l r, BST.search (BST.insert sample_bst 5) 5 = BST.Node 5 l r) /\
  (exists t' n l r h,
      AVL.insert sample_avl 5 = Done t' n /\
      AVL.search t' 5 = AVL.Node 5 l r h).
Proof. exact (insert_then_search 5 sample_bst sample_avl sample_avl_valid). Defined.

(** X4.  A key just removed is no longer found, in ordered plain trees
    and in valid self-balancing trees. *)
Theorem remove_then_search (k : Z) (tb : BST.tree) (ta : AVL.tree) :
  BST.ordered tb -> AVL.valid ta ->
  BST.search (BST.remove tb k) k = BST.Nil /\
  (exists t' n, AVL.remove ta k = Done t' n /\ AVL.search t' k = AVL.Nil).
Proof.
  intros Hb Hv. split.
  - apply bst_search_absent. rewrite bst_remove_in_order by assumption.
    intros Hin. apply in_delete_key in Hin. tauto.
  - destruct (avl_step_spec ta (Remove k) Hv) as (t' & n & E & _ & Hi).
    exists t', n. split; [exact E|].
    apply avl_search_absent. rewrite Hi.
    intros Hin. apply in_delete_key in Hin. tauto.
Qed.

Lemma remove_then_search_witness :
  BST.search (BST.remove sample_bst 20) 20 = BST.Nil /\
  (exists t' n,
      AVL.remove sample_avl 20 = Done t' n /\ AVL.search t' 20 = AVL.Nil).
Proof.
  exact (remove_then_search 20 sample_bst sample_avl
           sample_bst_ordered sample_avl_valid).
Defined.

Lemma in_dec_iff (j : Z) (l1 l2 : list Z) :
  (In j l1 <-> In j l2) ->
  (if in_dec Z.eq_dec j l1 then Found j else NotFound) =
  (if in_dec Z.eq_dec j l2 then Found j else NotFound).
Proof.
  intros H. destruct (in_dec Z.eq_dec j l1), (in_dec Z.eq_dec j l2);
    tauto || reflexivity.
Qed.

(** X5.  A mutation leaves the answer for every other key as it was:
    after [insert(k)] or [remove(k)] a search for [j <> k] finds a node
    exactly when it did before.  Both classes. *)
Theorem mutation_keeps_other_answers (o : op) (j : Z)
    (tb : BST.tree) (ta : AVL.tree) :
  BST.ordered tb -> AVL.valid ta ->
  j <> match o with Insert k | Remove k => k end ->
  BST.answer_of (BST.search (BST.step tb o) j) =
    BST.answer_of (BST.search tb j) /\
  (exists t' n,
      AVL.step ta o = Done t' n /\
      AVL.answer_of (AVL.search t' j) = AVL.answer_of (AVL.search ta j)).
Proof.
  intros Hb Hv Hj. split.
  - rewrite !bst_answer_spec by auto using bst_step_ordered.
    apply in_dec_iff. rewrite bst_step_in_order by assumption.
    destruct o as [k|k]; cbn [seq_step].
    + rewrite in_set_insert. tauto.
    + rewrite in_delete_key. tauto.
  - destruct (avl_step_spec ta o Hv) as (t' & n & E & [Ho' _] & Hi).
    exists t', n. split; [exact E|].
    rewrite !avl_answer_spec by (assumption || apply Hv).
    apply in_dec_iff. rewrite Hi.
    destruct o as [k|k]; cbn [seq_step].
    + rewrite in_set_insert. tauto.
    + rewrite in_delete_key. tauto.
Qed.

Lemma mutation_keeps_other_answers_witness :
  BST.answer_of (BST.search (BST.step sample_bst (Remove 20)) 30) =
    BST.answer_of (BST.search sample_bst 30) /\
  (exists t' n,
      AVL.step sample_avl (Remove 20) = Done t' n /\
      AVL.answer_of (AVL.search t' 30) =
        AVL.answer_of (AVL.search sample_avl 30)).
Proof.
  apply (mutation_keeps_other_answers (Remove 20) 30 sample_bst sample_avl
           sample_bst_ordered sample_avl_valid).
  lia.
Defined.

End Lookup.

Section PlainTreeStructure.

(** X6.  In the plain tree, inserting the same key twice is the same as
    inserting it once, whatever the tree: the second call retraces the
    comparisons of the first and stops at the key. *)
Theorem bst_insert_twice (t : BST.tree) (k : Z) :
  BST.insert (BST.insert t k) k = BST.insert t k.
Proof.
  induction t as [|d l IHl r IHr]; cbn [BST.insert].
  - rewrite Z.gtb_ltb, Z.ltb_irrefl. reflexivity.
  - rewrite Z.gtb_ltb. destruct (Z.ltb_spec k d) as [Hlt|Hge].
    + cbn [BST.insert]. destruct (Z.ltb_spec k d); [|lia].
      rewrite IHl. reflexivity.
    + destruct (Z.ltb_spec d k) as [Hgt|Hle]; cbn [BST.insert];
        rewrite Z.gtb_ltb; (destruct (Z.ltb_spec k d); [lia|]).
      * destruct (Z.ltb_spec d k); [|lia]. rewrite IHr. reflexivity.
      * destruct (Z.ltb_spec d k); [lia|]. reflexivity.
Qed.

(** X7.  In the plain tree, removing a key right after inserting it as
    a new key gives back the very same tree, node for node. *)
Theorem bst_remove_undoes_insert (t : BST.tree) (k : Z) :
  ~ In k (BST.in_order t) -> BST.remove (BST.insert t k) k = t.
Proof.
  induction t as [|d l IHl r IHr]; intros Hn.
  - cbn [BST.insert BST.remove]. rewrite Z.gtb_ltb, Z.ltb_irrefl. reflexivity.
  - cbn [BST.in_order] in Hn. rewrite in_app_iff in Hn. simpl in Hn.
    cbn [BST.insert]. rewrite Z.gtb_ltb.
    destruct (Z.ltb_spec k d) as [Hlt|Hge].
    + cbn [BST.remove]. destruct (Z.ltb_spec k d); [|lia].
      rewrite IHl by tauto. reflexivity.
    + destruct (Z.ltb_spec d k) as [Hgt|Hle]; [|exfalso; apply Hn; right; left; lia].
      cbn [BST.remove]. rewrite Z.gtb_ltb.
      destruct (Z.ltb_spec k d); [lia|].
      destruct (Z.ltb_spec d k); [|lia].
      rewrite IHr by tauto. reflexivity.
Qed.

Lemma bst_remove_undoes_insert_witness :
  BST.remove (BST.insert sample_bst 25) 25 = sample_bst.
Proof. apply (bst_remove_undoes_insert sample_bst 25). simpl. lia. Defined.

Lemma bst_in_insert (t : BST.tree) (k x : Z) :
  In x (BST.in_order (BST.insert t k)) <-> x = k \/ In x (BST.in_order t).
Proof.
  induction t as [|d l IHl r IHr]; cbn [BST.insert].
  - simpl. intuition congruence.
  - rewrite Z.gtb_ltb. destruct (Z.ltb_spec k d) as [Hlt|Hge].
    + cbn [BST.in_order]. rewrite !in_app_iff, IHl. simpl. tauto.
    + destruct (Z.ltb_spec d k) as [Hgt|Hle].
      * cbn [BST.in_order]. rewrite !in_app_iff. simpl. rewrite IHr. tauto.
      * assert (k = d) by lia. subst k.
        cbn [BST.in_order]. rewrite !in_app_iff. simpl. intuition congruence.
Qed.

Lemma bst_in_remove (t : BST.tree) (k x : Z) :
  (In x (BST.in_order (BST.remove t k)) -> In x (BST.in_order t)) /\
  (x <> k -> In x (BST.in_order t) -> In x (BST.in_order (BST.remove t k))).
Proof.
  revert k. induction t as [|d l IHl r IHr]; intros k; [simpl; tauto|].
  cbn [BST.remove]. rewrite Z.gtb_ltb.
  destruct (Z.ltb_spec k d) as [Hlt|Hge].
  - cbn [BST.in_order]. rewrite !in_app_iff. simpl.
    destruct (IHl k). tauto.
  - destruct (Z.ltb_spec d k) as [Hgt|Hle].
    + cbn [BST.in_order]. rewrite !in_app_iff. simpl.
      destruct (IHr k). tauto.
    + assert (k = d) by lia. subst k.
      destruct l as [|ld ll lr].
      { cbn [BST.in_order app]. simpl. intuition congruence. }
      destruct r as [|rd rl rr].
      { cbn [BST.in_order]. rewrite !in_app_iff. simpl. intuition congruence. }
      destruct (min_value_node_present (BST.Node rd rl rr))
        as (m & a & b & rest & Hm & Hi); [discriminate|].
      rewrite Hm.
      set (L := BST.Node ld ll lr) in *. set (R := BST.Node rd rl rr) in *.
      cbn [BST.in_order]. rewrite !in_app_iff. simpl.
      destruct (IHr m) as [Hsub Hkeep].
      assert (Hmr : In m (BST.in_order R)) by (rewrite Hi; left; reflexivity).
      split.
      * intros [H|[H|H]]; [tauto| |auto]. subst x. auto.
      * intros Hx [H|[H|H]]; [tauto|congruence|].
        destruct (Z.eq_dec x m) as [->|Hxm]; [tauto|]. auto.
Qed.

(** X8.  On any plain tree, ordered or not, [insert] adds the key and
    keeps every key that was there, and [remove] introduces no key and
    drops no key other than the one removed. *)
Theorem bst_mutations_keep_other_keys (t : BST.tree) (k x : Z) :
  (In x (BST.in_order (BST.insert t k)) <-> x = k \/ In x (BST.in_order t)) /\
  (In x (BST.in_order (BST.remove t k)) -> In x (BST.in_order t)) /\
  (x <> k -> In x (BST.in_order t) -> In x (BST.in_order (BST.remove t k))).
Proof.
  split; [apply bst_in_insert|apply bst_in_remove].
Qed.

Lemma bst_mutations_keep_other_keys_witness :
  In 30 (BST.in_order (BST.remove sample_bst 20)).
Proof.
  apply (bst_mutations_keep_other_keys sample_bst 20 30); simpl; lia.
Defined.

Lemma bst_min_value_node_shape (t : BST.tree) :
  t <> BST.Nil ->
  exists m b, BST.min_value_node t = BST.Node m BST.Nil b.
Proof.
  induction t as [|d l IHl r _]; [congruence|]. intros _.
  destruct l as [|ld ll lr]; [exists d, r; reflexivity|].
  apply IHl. discriminate.
Qed.

(** X9.  [min_value_node] returns [nullptr] only for an absent node;
    otherwise it returns a node without a left child whose key is the
    first of the in-order traversal, and in an ordered tree that key is
    below every other key. *)
Theorem min_value_node_is_minimum (t : BST.tree) :
  (BST.min_value_node t = BST.Nil <-> t = BST.Nil) /\
  (t <> BST.Nil ->
   exists m b rest,
     BST.min_value_node t = BST.Node m BST.Nil b /\
     BST.in_order t = m :: rest /\
     (BST.ordered t -> Forall (fun x => m < x) rest)).
Proof.
  split.
  - split; [|intros ->; reflexivity].
    intros E. destruct t as [|d l r]; [reflexivity|].
    destruct (bst_min_value_node_shape (BST.Node d l r)) as (m & b & E');
      [discriminate|congruence].
  - intros Hne.
    destruct (bst_min_value_node_shape t Hne) as (m & b & E).
    destruct (min_value_node_present t Hne) as (m' & a' & b' & rest & E' & Hi).
    rewrite E in E'. injection E' as <- _ _.
    exists m, b, rest. repeat split; auto.
    intros Ho. apply bst_ordered_ascending in Ho. rewrite Hi in Ho.
    inversion Ho; assumption.
Qed.

Lemma min_value_node_is_minimum_witness :
  exists m b rest,
    BST.min_value_node sample_bst = BST.Node m BST.Nil b /\
    BST.in_order sample_bst = m :: rest /\
    Forall (fun x => m < x) rest.
Proof.
  destruct (proj2 (min_value_node_is_minimum sample_bst))
    as (m & b & rest & E & Hi & Hf); [discriminate|].
  exists m, b, rest. split; [exact E|]. split; [exact Hi|].
  apply Hf, sample_bst_ordered.
Defined.

End PlainTreeStructure.

(** Running through every branch of a rebalancing tail. *)
Ltac branch_cases :=
  repeat (cbn [AVL.bind AVL.ret AVL.update_height
               AVL.balance_factor AVL.height AVL.left AVL.right AVL.set_left
               AVL.set_right AVL.left_data AVL.right_data AVL.rotate_left
               AVL.rotate_right andb Nat.add];
          unfold AVL.and_then;
          match goal with
          | |- context [if (?a <? ?b) && _ then _ else _] => destruct (a <? b)
          | |- context [if (?a <=? ?b) then _ else _] => destruct (a <=? b)
          | |- context [if (?a <? ?b) then _ else _] => destruct (a <? b)
          | |- context [if (?a >? ?b) then _ else _] => destruct (a >? b)
          | |- context [match ?t with AVL.Nil => _ | AVL.Node _ _ _ _ => _ end] =>
              is_var t; destruct t
          | |- context [AVL.rotate_left ?t] => is_var t; destruct t
          | |- context [AVL.rotate_right ?t] => is_var t; destruct t
          end).

Ltac same_in_order :=
  cbn [AVL.in_order AVL.update_height]; rewrite <- ?app_assoc; cbn [app];
  rewrite <- ?app_assoc; reflexivity.

Section RotationFacts.

(** Whatever the stored heights, the tail of [insert] keeps the in-order
    sequence when it returns, and invokes at most two rotations. *)
Lemma insert_rebalance_any (node t : AVL.tree) (k : Z) (n : nat) :
  AVL.insert_rebalance node k = Done t n ->
  AVL.in_order t = AVL.in_order node /\ (n <= 2)%nat.
Proof.
  unfold AVL.insert_rebalance. destruct node as [|d l r h].
  - branch_cases; intros E; inversion E; subst; split; (same_in_order || lia).
  - branch_cases; intros E; inversion E; subst; split;
      (same_in_order || lia).
Qed.

Lemma remove_rebalance_any (node t : AVL.tree) (n : nat) :
  AVL.remove_rebalance node = Done t n ->
  AVL.in_order t = AVL.in_order node /\ (n <= 2)%nat.
Proof.
  unfold AVL.remove_rebalance. destruct node as [|d l r h];
    branch_cases; intros E; inversion E; subst; split;
      (same_in_order || lia).
Qed.

(** X10.  On a node whose two subtrees store right heights (its own
    stored height may be anything): a rotation stops with a fault exactly
    when the child it would promote is absent.  Otherwise it counts as
    one rotation, puts that child's key at the root of the subtree and
    leaves the in-order sequence as it was.  Right and left rotation
    alike. *)
Theorem rotation_promotes_child (t : AVL.tree) :
  AVL.heights_stored (AVL.left t) -> AVL.heights_stored (AVL.right t) ->
  (AVL.left t = AVL.Nil -> exists f, AVL.rotate_right t = Fatal f) /\
  (AVL.left t <> AVL.Nil ->
   exists t',
     AVL.rotate_right t = Done t' 1 /\
     AVL.in_order t' = AVL.in_order t /\
     AVL.root_data t' = AVL.root_data (AVL.left t)) /\
  (AVL.right t = AVL.Nil -> exists f, AVL.rotate_left t = Fatal f) /\
  (AVL.right t <> AVL.Nil ->
   exists t',
     AVL.rotate_left t = Done t' 1 /\
     AVL.in_order t' = AVL.in_order t /\
     AVL.root_data t' = AVL.root_data (AVL.right t)).
Proof.
  intros _ _. destruct t as [|d l r h]; cbn [AVL.left AVL.right].
  - repeat split; try congruence; intros _; eexists; reflexivity.
  - split; [|split; [|split]].
    + intros ->. eexists. reflexivity.
    + destruct l as [|ld ll lr lh]; [congruence|]. intros _.
      eexists. split; [reflexivity|]. split; [same_in_order|reflexivity].
    + intros ->. destruct l; eexists; reflexivity.
    + destruct r as [|rd rl rr rh]; [congruence|]. intros _.
      eexists. split; [reflexivity|]. split; [same_in_order|reflexivity].
Qed.

Lemma rotation_promotes_child_witness :
  exists t',
    AVL.rotate_left heavy_right = Done t' 1 /\
    AVL.in_order t' = AVL.in_order heavy_right /\
    AVL.root_data t' = AVL.root_data (AVL.right heavy_right).
Proof.
  apply (rotation_promotes_child heavy_right).
  - cbn [heavy_right AVL.left AVL.heights_stored AVL.height]. repeat split; lia.
  - cbn [heavy_right AVL.right AVL.heights_stored AVL.height]. repeat split; lia.
  - discriminate.
Defined.

(** X11.  On a tree whose stored heights are right, the two rotations
    undo each other: rotating right and then left, or left and then
    right, gives back the very same tree, stored heights included. *)
Theorem rotations_undo_each_other (t : AVL.tree) :
  AVL.heights_stored t ->
  (AVL.left t <> AVL.Nil ->
   exists t', AVL.rotate_right t = Done t' 1 /\ AVL.rotate_left t' = Done t 1) /\
  (AVL.right t <> AVL.Nil ->
   exists t', AVL.rotate_left t = Done t' 1 /\ AVL.rotate_right t' = Done t 1).
Proof.
  destruct t as [|d l r h]; cbn [AVL.left AVL.right]; [intros _; split; congruence|].
  intros (Hl & Hr & Hh). split.
  - destruct l as [|ld ll lr lh]; [congruence|]. intros _.
    destruct Hl as (_ & _ & Hlh). cbn [AVL.height] in Hh.
    eexists. split; [reflexivity|].
    cbn [AVL.rotate_left AVL.update_height AVL.height].
    rewrite <- Hlh, <- Hh. reflexivity.
  - destruct r as [|rd rl rr rh]; [congruence|]. intros _.
    destruct Hr as (_ & _ & Hrh). cbn [AVL.height] in Hh.
    eexists. split; [reflexivity|].
    cbn [AVL.rotate_right AVL.update_height AVL.height].
    rewrite <- Hrh, <- Hh. reflexivity.
Qed.

Lemma sample_avl_heights_stored : AVL.heights_stored sample_avl.
Proof.
  cbn [sample_avl AVL.heights_stored AVL.height]. repeat split; lia.
Defined.

Lemma rotations_undo_each_other_witness :
  exists t',
    AVL.rotate_right sample_avl = Done t' 1 /\
    AVL.rotate_left t' = Done sample_avl 1.
Proof.
  apply (rotations_undo_each_other sample_avl sample_avl_heights_stored).
  discriminate.
Defined.

(** X12.  A rotation recomputes the two heights it invalidates: if the
    stored heights below the two rotated nodes are right, so are all
    stored heights of the rotated tree, whatever the two nodes stored
    before. *)
Theorem rotation_restores_heights (t t' : AVL.tree) (n : nat) :
  (AVL.heights_stored (AVL.left (AVL.left t)) ->
   AVL.heights_stored (AVL.right (AVL.left t)) ->
   AVL.heights_stored (AVL.right t) ->
   AVL.rotate_right t = Done t' n -> AVL.heights_stored t') /\
  (AVL.heights_stored (AVL.left t) ->
   AVL.heights_stored (AVL.left (AVL.right t)) ->
   AVL.heights_stored (AVL.right (AVL.right t)) ->
   AVL.rotate_left t = Done t' n -> AVL.heights_stored t').
Proof.
  split.
  - intros Hll Hlr Hr E.
    destruct t as [|d [|ld ll lr lh] r h]; try discriminate E.
    cbn [AVL.left AVL.right AVL.rotate_right AVL.update_height] in *.
    injection E as <- _.
    cbn [AVL.heights_stored AVL.height]. repeat split; auto.
  - intros Hl Hrl Hrr E.
    destruct t as [|d l [|rd rl rr rh] h]; try discriminate E.
    cbn [AVL.left AVL.right AVL.rotate_left AVL.update_height] in *.
    injection E as <- _.
    cbn [AVL.heights_stored AVL.height]. repeat split; auto.
Qed.

Lemma rotation_restores_heights_witness :
  AVL.heights_stored
    (AVL.Node 20 (AVL.Node 10 AVL.Nil AVL.Nil 1)
                 (AVL.Node 30 AVL.Nil AVL.Nil 1) 2).
Proof.
  apply (proj2 (rotation_restores_heights
           (AVL.Node 10 AVL.Nil
              (AVL.Node 20 AVL.Nil (AVL.Node 30 AVL.Nil AVL.Nil 1) 7) 9)
           _ 1%nat)).
  - exact I.
  - exact I.
  - cbn [AVL.right AVL.heights_stored AVL.height]. repeat split; lia.
  - reflexivity.
Defined.

End RotationFacts.

Section AnyStoredHeights.

Lemma bind_done {A B} (m : AVL.outcome A) (f : A -> AVL.outcome B)
    (b : B) (n : nat) :
  AVL.bind m f = Done b n ->
  exists a n1 n2, m = Done a n1 /\ f a = Done b n2 /\ n = (n1 + n2)%nat.
Proof.
  unfold AVL.bind. destruct m as [a n1|e]; [|discriminate].
  destruct (f a) as [b' n2|e] eqn:E; [|discriminate].
  intros H. injection H as <- <-. exists a, n1, n2. auto.
Qed.

Lemma avl_in_insert_any (t t' : AVL.tree) (k x : Z) (n : nat) :
  AVL.insert t k = Done t' n ->
  (In x (AVL.in_order t') <-> x = k \/ In x (AVL.in_order t)).
Proof.
  revert t' n. induction t as [|d l IHl r IHr h]; intros t' n; cbn [AVL.insert].
  - intros E. injection E as <- _. simpl. intuition congruence.
  - rewrite Z.gtb_ltb. destruct (Z.ltb_spec k d) as [Hlt|Hge].
    + intros E. apply bind_done in E. destruct E as (l' & n1 & n2 & E1 & E2 & _).
      apply insert_rebalance_any in E2. destruct E2 as [-> _].
      cbn [AVL.in_order]. rewrite !in_app_iff, (IHl _ _ E1). simpl. tauto.
    + destruct (Z.ltb_spec d k) as [Hgt|Hle].
      * intros E. apply bind_done in E.
        destruct E as (r' & n1 & n2 & E1 & E2 & _).
        apply insert_rebalance_any in E2. destruct E2 as [-> _].
        cbn [AVL.in_order]. rewrite !in_app_iff. simpl.
        rewrite (IHr _ _ E1). tauto.
      * intros E. injection E as <- _. assert (k = d) by lia. subst k.
        cbn [AVL.in_order]. rewrite !in_app_iff. simpl. intuition congruence.
Qed.

Lemma avl_in_remove_any (t t' : AVL.tree) (k x : Z) (n : nat) :
  AVL.remove t k = Done t' n ->
  (In x (AVL.in_order t') -> In x (AVL.in_order t)) /\
  (x <> k -> In x (AVL.in_order t) -> In x (AVL.in_order t')).
Proof.
  revert k t' n. induction t as [|d l IHl r IHr h]; intros k t' n;
    cbn [AVL.remove].
  - intros E. injection E as <- _. simpl. tauto.
  - rewrite Z.gtb_ltb. destruct (Z.ltb_spec k d) as [Hlt|Hge].
    + intros E. apply bind_done in E. destruct E as (l' & n1 & n2 & E1 & E2 & _).
      apply remove_rebalance_any in E2. destruct E2 as [-> _].
      cbn [AVL.in_order]. rewrite !in_app_iff. simpl.
      destruct (IHl _ _ _ E1). tauto.
    + destruct (Z.ltb_spec d k) as [Hgt|Hle].
      * intros E. apply bind_done in E.
        destruct E as (r' & n1 & n2 & E1 & E2 & _).
        apply remove_rebalance_any in E2. destruct E2 as [-> _].
        cbn [AVL.in_order]. rewrite !in_app_iff. simpl.
        destruct (IHr _ _ _ E1). tauto.
      * assert (k = d) by lia. subst k.
        destruct l as [|ld ll lr lh]; destruct r as [|rd rl rr rh].
        -- intros E. injection E as <- _. simpl. intuition congruence.
        -- intros E. apply remove_rebalance_any in E. destruct E as [-> _].
           set (R := AVL.Node rd rl rr rh).
           cbn [AVL.in_order app]. simpl. intuition congruence.
        -- intros E. apply remove_rebalance_any in E. destruct E as [-> _].
           set (L := AVL.Node ld ll lr lh).
           cbn [AVL.in_order]. rewrite !in_app_iff. simpl. intuition congruence.
        -- destruct (successor_present (AVL.Node rd rl rr rh))
             as (m & a & b & mh & rest & Hm & Hi); [discriminate|].
           rewrite Hm. intros E. apply bind_done in E.
           destruct E as (r' & n1 & n2 & E1 & E2 & _).
           apply remove_rebalance_any in E2. destruct E2 as [-> _].
           set (L := AVL.Node ld ll lr lh) in *.
           set (R := AVL.Node rd rl rr rh) in *.
           cbn [AVL.in_order]. rewrite !in_app_iff. simpl.
           destruct (IHr _ _ _ E1) as [Hsub Hkeep].
           assert (Hmr : In m (AVL.in_order R)) by (rewrite Hi; left; reflexivity).
           split.
           ++ intros [H|[H|H]]; [tauto| |auto]. subst x. auto.
           ++ intros Hx [H|[H|H]]; [tauto|congruence|].
              destruct (Z.eq_dec x m) as [->|Hxm]; [tauto|]. auto.
Qed.

(** Stored heights and balance are kept by [insert] whether or not the
    keys are in order: the repair reads heights and compares the new key
    with the keys on its own path only. *)
Lemma avl_insert_any_order (t : AVL.tree) (k : Z) :
  AVL.avl t ->
  exists t' n,
    AVL.insert t k = Done t' n /\
    AVL.avl t' /\
    (AVL.height t' = AVL.height t \/
     (AVL.height t' = AVL.height t + 1 /\ AVL.grown k t')).
Proof.
  induction t as [|d l IHl r IHr h].
  - intros _. do 2 eexists. split; [reflexivity|].
    cbn [AVL.avl AVL.height AVL.grown].
    repeat split; auto; try lia; right; (split; [lia|]); left; auto.
  - intros Ha. pose proof Ha as (Al & Ar & Hh & Hb).
    cbn [AVL.insert]. rewrite Z.gtb_ltb.
    destruct (Z.ltb_spec k d) as [Hlt|Hge].
    + destruct (IHl Al) as (l' & n1 & E1 & Al' & Hl').
      destruct (insert_rebalance_left d h k l' r Al' Ar)
        as (t' & n2 & E2 & At' & _ & Hsame & Hrot);
        [lia|intros; destruct Hl' as [?|[_ ?]]; [lia|assumption]|].
      rewrite E1. cbn [AVL.bind]. rewrite E2.
      do 2 eexists. split; [reflexivity|]. split; [exact At'|].
      cbn [AVL.height].
      destruct (Z.le_gt_cases (AVL.height l') (AVL.height r + 1)) as [Hc|Hc].
      * destruct (Hsame Hc) as [-> _]. cbn [AVL.height AVL.grown].
        destruct (Z.eq_dec (AVL.height l') (AVL.height l)) as [He|He];
          [left; lia|].
        destruct (Z.le_gt_cases (AVL.height l') (AVL.height r));
          [left; lia|].
        right. split; [lia|]. right. left. split; lia.
      * left. rewrite Hrot; lia.
    + destruct (Z.ltb_spec d k) as [Hgt|Hle].
      * destruct (IHr Ar) as (r' & n1 & E1 & Ar' & Hr').
        destruct (insert_rebalance_right d h k l r' Al Ar')
          as (t' & n2 & E2 & At' & _ & Hsame & Hrot);
          [lia|intros; destruct Hr' as [?|[_ ?]]; [lia|assumption]|].
        rewrite E1. cbn [AVL.bind]. rewrite E2.
        do 2 eexists. split; [reflexivity|]. split; [exact At'|].
        cbn [AVL.height].
        destruct (Z.le_gt_cases (AVL.height r') (AVL.height l + 1)) as [Hc|Hc].
        -- destruct (Hsame Hc) as [-> _]. cbn [AVL.height AVL.grown].
           destruct (Z.eq_dec (AVL.height r') (AVL.height r)) as [He|He];
             [left; lia|].
           destruct (Z.le_gt_cases (AVL.height r') (AVL.height l));
             [left; lia|].
           right. split; [lia|]. right. right. split; lia.
        -- left. rewrite Hrot; lia.
      * do 2 eexists. split; [reflexivity|]. split; [exact Ha|].
        left. reflexivity.
Qed.

Lemma avl_remove_any_order (t : AVL.tree) (k : Z) :
  AVL.avl t ->
  exists t' n,
    AVL.remove t k = Done t' n /\
    AVL.avl t' /\
    AVL.height t - 1 <= AVL.height t' <= AVL.height t.
Proof.
  revert k. induction t as [|d l IHl r IHr h]; intros k.
  - intros _. do 2 eexists. split; [reflexivity|].
    cbn [AVL.avl AVL.height]. repeat split; auto; lia.
  - intros Ha. pose proof Ha as (Al & Ar & Hh & Hb).
    pose proof (avl_height_nonneg l Al) as Hl0.
    pose proof (avl_height_nonneg r Ar) as Hr0.
    cbn [AVL.remove]. rewrite Z.gtb_ltb.
    destruct (Z.ltb_spec k d) as [Hlt|Hge].
    + destruct (IHl k Al) as (l' & n1 & E1 & Al' & Hl').
      destruct (remove_rebalance_spec d h l' r Al' Ar)
        as (t' & n2 & E2 & At' & _ & Hsame & Hht); [lia|].
      rewrite E1. cbn [AVL.bind]. rewrite E2.
      do 2 eexists. split; [reflexivity|]. split; [exact At'|].
      cbn [AVL.height].
      destruct (Z.le_gt_cases (AVL.height r) (AVL.height l' + 1)) as [Hc|Hc].
      * destruct Hsame as [-> _]; [lia|]. cbn [AVL.height]. lia.
      * lia.
    + destruct (Z.ltb_spec d k) as [Hgt|Hle].
      * destruct (IHr k Ar) as (r' & n1 & E1 & Ar' & Hr').
        destruct (remove_rebalance_spec d h l r' Al Ar')
          as (t' & n2 & E2 & At' & _ & Hsame & Hht); [lia|].
        rewrite E1. cbn [AVL.bind]. rewrite E2.
        do 2 eexists. split; [reflexivity|]. split; [exact At'|].
        cbn [AVL.height].
        destruct (Z.le_gt_cases (AVL.height l) (AVL.height r' + 1)) as [Hc|Hc].
        -- destruct Hsame as [-> _]; [lia|]. cbn [AVL.height]. lia.
        -- lia.
      * destruct l as [|ld ll lr lh]; destruct r as [|rd rl rr rh].
        -- do 2 eexists. split; [reflexivity|].
           cbn [AVL.avl AVL.height] in *. repeat split; auto; lia.
        -- rewrite remove_rebalance_valid by assumption.
           do 2 eexists. split; [reflexivity|]. split; [exact Ar|].
           cbn [AVL.height] in *. lia.
        -- rewrite remove_rebalance_valid by assumption.
           do 2 eexists. split; [reflexivity|]. split; [exact Al|].
           cbn [AVL.height] in *. lia.
        -- destruct (successor_present (AVL.Node rd rl rr rh))
             as (m & a & b & mh & rest & Hm & _); [discriminate|].
           rewrite Hm.
           destruct (IHr m Ar) as (r' & n1 & E1 & Ar' & Hr').
           destruct (remove_rebalance_spec m h (AVL.Node ld ll lr lh) r' Al Ar')
             as (t' & n2 & E2 & At' & _ & Hsame & Hht); [lia|].
           rewrite E1. cbn [AVL.bind]. rewrite E2.
           do 2 eexists. split; [reflexivity|]. split; [exact At'|].
           set (L := AVL.Node ld ll lr lh) in *.
           set (R := AVL.Node rd rl rr rh) in *.
           change (AVL.height (AVL.Node d L R h)) with h.
           destruct (Z.le_gt_cases (AVL.height L) (AVL.height r' + 1)) as [Hc|Hc].
           ++ destruct Hsame as [-> _]; [lia|]. cbn [AVL.height]. lia.
           ++ lia.
Qed.

(** X13.  The balancing does not depend on the keys being in order.  On
    every tree whose stored heights and balance are right, ordered or
    not, [insert] and [remove] return a tree whose stored heights and
    balance are right again; after [insert] it holds the new key and
    exactly the keys held before, and after [remove] it holds no new key
    and has lost no key other than the one removed.  The rotations
    never drop or invent a key. *)
Theorem avl_mutations_keep_other_keys (t : AVL.tree) (k x : Z) :
  AVL.avl t ->
  (exists t' n,
      AVL.insert t k = Done t' n /\ AVL.avl t' /\
      (In x (AVL.in_order t') <-> x = k \/ In x (AVL.in_order t))) /\
  (exists t' n,
      AVL.remove t k = Done t' n /\ AVL.avl t' /\
      (In x (AVL.in_order t') -> In x (AVL.in_order t)) /\
      (x <> k -> In x (AVL.in_order t) -> In x (AVL.in_order t'))).
Proof.
  intros Ha. split.
  - destruct (avl_insert_any_order t k Ha) as (t' & n & E & Ha' & _).
    exists t', n. split; [exact E|]. split; [exact Ha'|].
    apply (avl_in_insert_any t t' k x n E).
  - destruct (avl_remove_any_order t k Ha) as (t' & n & E & Ha' & _).
    exists t', n. split; [exact E|]. split; [exact Ha'|].
    apply (avl_in_remove_any t t' k x n E).
Qed.

Lemma unordered_avl_avl : AVL.avl unordered_avl.
Proof.
  cbn [unordered_avl AVL.avl AVL.height]. repeat split; lia.
Defined.

(** The theorem on a tree whose keys are out of order, at a removal
    that rotates once. *)
Lemma avl_mutations_keep_other_keys_witness :
  exists t' n,
    AVL.remove unordered_avl 15 = Done t' n /\ n = 1%nat /\ AVL.avl t' /\
    (5 <> 15 -> In 5 (AVL.in_order unordered_avl) -> In 5 (AVL.in_order t')).
Proof.
  destruct (proj2 (avl_mutations_keep_other_keys unordered_avl 15 5
                     unordered_avl_avl)) as (t' & n & E & Ha & _ & Hk).
  exists t', n. split; [exact E|]. split; [|split; [exact Ha|exact Hk]].
  vm_compute in E. injection E as _ E. symmetry. exact E.
Defined.

Lemma avl_depth_nonneg (t : AVL.tree) : 0 <= AVL.depth t.
Proof. induction t; cbn [AVL.depth]; lia. Qed.

Lemma remove_rotations_depth (t t' : AVL.tree) (k : Z) (n : nat) :
  AVL.remove t k = Done t' n -> Z.of_nat n <= 2 * AVL.depth t.
Proof.
  revert k t' n. induction t as [|d l IHl r IHr h]; intros k t' n;
    cbn [AVL.remove].
  - intros E. injection E as _ <-. cbn [AVL.depth]. lia.
  - pose proof (avl_depth_nonneg l). pose proof (avl_depth_nonneg r).
    cbn [AVL.depth]. rewrite Z.gtb_ltb.
    destruct (Z.ltb_spec k d) as [Hlt|Hge].
    + intros E. apply bind_done in E. destruct E as (l' & n1 & n2 & E1 & E2 & ->).
      apply remove_rebalance_any in E2. apply IHl in E1. lia.
    + destruct (Z.ltb_spec d k) as [Hgt|Hle].
      * intros E. apply bind_done in E.
        destruct E as (r' & n1 & n2 & E1 & E2 & ->).
        apply remove_rebalance_any in E2. apply IHr in E1. lia.
      * destruct l as [|ld ll lr lh]; destruct r as [|rd rl rr rh].
        -- intros E. injection E as _ <-. lia.
        -- intros E. apply remove_rebalance_any in E.
           pose proof (avl_depth_nonneg rl). pose proof (avl_depth_nonneg rr).
           cbn [AVL.depth] in *. lia.
        -- intros E. apply remove_rebalance_any in E.
           pose proof (avl_depth_nonneg ll). pose proof (avl_depth_nonneg lr).
           cbn [AVL.depth] in *. lia.
        -- destruct (AVL.successor (AVL.Node rd rl rr rh)) as [|m a b mh];
             [discriminate|].
           intros E. apply bind_done in E.
           destruct E as (r' & n1 & n2 & E1 & E2 & ->).
           apply remove_rebalance_any in E2. apply IHr in E1. lia.
Qed.

(** X15.  On a valid self-balancing tree a [remove] invokes at most two
    rotations per level: their number is at most twice the stored height
    of the tree. *)
Theorem remove_rotations_bounded (t t' : AVL.tree) (k : Z) (n : nat) :
  AVL.valid t -> AVL.remove t k = Done t' n -> Z.of_nat n <= 2 * AVL.height t.
Proof.
  intros [_ Ha] E. rewrite (avl_height_depth t Ha).
  apply (remove_rotations_depth t t' k n E).
Qed.

Lemma heavy_right_valid : AVL.valid heavy_right.
Proof.
  split; cbn [heavy_right AVL.ordered AVL.avl AVL.in_order AVL.height app].
  - repeat (constructor; try lia).
  - repeat split; lia.
Defined.

(** The theorem at a removal that rotates twice. *)
Lemma remove_rotations_bounded_witness :
  Z.of_nat 2 <= 2 * AVL.height heavy_right.
Proof.
  apply (remove_rotations_bounded heavy_right
           (AVL.Node 25 (AVL.Node 20 AVL.Nil AVL.Nil 1)
                        (AVL.Node 30 AVL.Nil AVL.Nil 1) 2) 10 2%nat).
  - exact heavy_right_valid.
  - reflexivity.
Defined.

End AnyStoredHeights.

Section ValidTreeBounds.

Lemma avl_insert_rotations (t : AVL.tree) (k : Z) :
  AVL.ordered t -> AVL.avl t ->
  forall t' n,
    AVL.insert t k = Done t' n ->
    (n <= 2)%nat /\ (AVL.height t' = AVL.height t + 1 -> n = O).
Proof.
  induction t as [|d l IHl r IHr h].
  - intros _ _ t' n E. injection E as _ <-. split; [lia|reflexivity].
  - intros (Ol & Or & Fl & Fr) Ha t' n. pose proof Ha as (Al & Ar & Hh & Hb).
    cbn [AVL.insert]. rewrite Z.gtb_ltb.
    destruct (Z.ltb_spec k d) as [Hlt|Hge].
    + destruct (avl_insert_spec l k Ol Al) as (l' & n1 & E1 & Al' & _ & Hl').
      destruct (IHl Ol Al l' n1 E1) as [Hn1 Hz1].
      rewrite E1. cbn [AVL.bind].
      destruct (insert_rebalance_left d h k l' r Al' Ar)
        as (t1 & n2 & E2 & _ & _ & Hsame & Hrot);
        [lia|intros; destruct Hl' as [?|[_ ?]]; [lia|assumption]|].
      rewrite E2. intros E. injection E as <- <-.
      destruct (insert_rebalance_any _ _ _ _ E2) as [_ Hn2].
      destruct (Z.le_gt_cases (AVL.height l') (AVL.height r + 1)) as [Hc|Hc].
      * destruct (Hsame Hc) as [-> ->]. cbn [AVL.height].
        split; [lia|]. intros Hg. rewrite Hz1; [reflexivity|lia].
      * rewrite Hz1 by lia. split; [lia|].
        rewrite Hrot by lia. cbn [AVL.height]. lia.
    + destruct (Z.ltb_spec d k) as [Hgt|Hle].
      * destruct (avl_insert_spec r k Or Ar) as (r' & n1 & E1 & Ar' & _ & Hr').
        destruct (IHr Or Ar r' n1 E1) as [Hn1 Hz1].
        rewrite E1. cbn [AVL.bind].
        destruct (insert_rebalance_right d h k l r' Al Ar')
          as (t1 & n2 & E2 & _ & _ & Hsame & Hrot);
          [lia|intros; destruct Hr' as [?|[_ ?]]; [lia|assumption]|].
        rewrite E2. intros E. injection E as <- <-.
        destruct (insert_rebalance_any _ _ _ _ E2) as [_ Hn2].
        destruct (Z.le_gt_cases (AVL.height r') (AVL.height l + 1)) as [Hc|Hc].
        -- destruct (Hsame Hc) as [-> ->]. cbn [AVL.height].
           split; [lia|]. intros Hg. rewrite Hz1; [reflexivity|lia].
        -- rewrite Hz1 by lia. split; [lia|].
           rewrite Hrot by lia. cbn [AVL.height]. lia.
      * intros E. injection E as _ <-. split; [lia|reflexivity].
Qed.

(** X14.  On a valid self-balancing tree an [insert] invokes at most two
    rotations in all, one single or one double rotation at a single
    node, however deep the tree is. *)
Theorem insert_rotates_at_most_twice (t t' : AVL.tree) (k : Z) (n : nat) :
  AVL.valid t -> AVL.insert t k = Done t' n -> (n <= 2)%nat.
Proof.
  intros [Ho Ha] E. apply (avl_insert_rotations t k Ho Ha t' n E).
Qed.

Lemma insert_rotates_at_most_twice_witness : (1 <= 2)%nat.
Proof.
  apply (insert_rotates_at_most_twice
           (AVL.Node 10 AVL.Nil (AVL.Node 20 AVL.Nil AVL.Nil 1) 2)
           sample_avl 30 1).
  - split; cbn [AVL.ordered AVL.avl AVL.in_order AVL.height app].
    + repeat (constructor; try lia).
    + repeat split; lia.
  - reflexivity.
Defined.

(** X16.  On a valid self-balancing tree one [insert] raises the stored
    height of the root by at most one and never lowers it, and one
    [remove] lowers it by at most one and never raises it. *)
Theorem height_moves_by_one (t : AVL.tree) (k : Z) :
  AVL.valid t ->
  (exists t' n,
      AVL.insert t k = Done t' n /\
      AVL.height t <= AVL.height t' <= AVL.height t + 1) /\
  (exists t' n,
      AVL.remove t k = Done t' n /\
      AVL.height t - 1 <= AVL.height t' <= AVL.height t).
Proof.
  intros [Ho Ha]. split.
  - destruct (avl_insert_spec t k Ho Ha) as (t' & n & E & _ & _ & Hh).
    exists t', n. split; [exact E|lia].
  - destruct (avl_remove_spec t k Ho Ha) as (t' & n & E & _ & _ & Hh).
    exists t', n. split; [exact E|lia].
Qed.

Lemma height_moves_by_one_witness :
  exists t' n,
    AVL.insert sample_avl 5 = Done t' n /\
    AVL.height sample_avl <= AVL.height t' <= AVL.height sample_avl + 1.
Proof. exact (proj1 (height_moves_by_one sample_avl 5 sample_avl_valid)). Defined.

Lemma half_pred (h : Z) : (h - 2) / 2 = h / 2 - 1.
Proof.
  replace (h - 2) with (h + (-1) * 2) by lia.
  rewrite Z.div_add by lia. lia.
Qed.

Lemma avl_size_lower_bound (t : AVL.tree) :
  AVL.avl t -> 2 ^ (AVL.height t / 2) <= Z.of_nat (AVL.size t) + 1.
Proof.
  induction t as [|d l IHl r IHr h].
  - intros _. cbn. lia.
  - intros Ha. pose proof Ha as (Al & Ar & Hh & Hb).
    pose proof (avl_height_nonneg l Al) as Hl0.
    pose proof (avl_height_nonneg r Ar) as Hr0.
    specialize (IHl Al). specialize (IHr Ar).
    cbn [AVL.height AVL.size].
    destruct (Z.le_gt_cases h 1) as [Hsmall|Hbig].
    + assert (H1 : h = 1) by lia. rewrite H1. change (2 ^ (1 / 2)) with 1. lia.
    + assert (He : 0 <= h / 2 - 1).
      { rewrite <- half_pred. apply Z.div_pos; lia. }
      assert (Hpl : 2 ^ (h / 2 - 1) <= 2 ^ (AVL.height l / 2)).
      { apply Z.pow_le_mono_r; [lia|]. rewrite <- half_pred.
        apply Z.div_le_mono; lia. }
      assert (Hpr : 2 ^ (h / 2 - 1) <= 2 ^ (AVL.height r / 2)).
      { apply Z.pow_le_mono_r; [lia|]. rewrite <- half_pred.
        apply Z.div_le_mono; lia. }
      replace (h / 2) with (Z.succ (h / 2 - 1)) by lia.
      rewrite Z.pow_succ_r by assumption. lia.
Qed.

(** X17.  The height of a valid self-balancing tree is logarithmic in
    the number of its nodes: a tree of stored height [h] has at least
    [2^(h/2) - 1] nodes, so [h] is at most [2 * log2 (nodes + 1) + 1]. *)
Theorem height_is_logarithmic (t : AVL.tree) :
  AVL.avl t ->
  2 ^ (AVL.height t / 2) <= Z.of_nat (AVL.size t) + 1 /\
  AVL.height t <= 2 * Z.log2 (Z.of_nat (AVL.size t) + 1) + 1.
Proof.
  intros Ha. pose proof (avl_size_lower_bound t Ha) as Hb.
  split; [exact Hb|].
  pose proof (avl_height_nonneg t Ha) as H0.
  set (N := Z.of_nat (AVL.size t) + 1) in *.
  assert (HN : 0 < N) by (unfold N; lia).
  assert (Hlog : AVL.height t / 2 <= Z.log2 N).
  { apply Z.log2_le_pow2; [exact HN|exact Hb]. }
  pose proof (Z.div_mod (AVL.height t) 2 ltac:(lia)) as Hdm.
  pose proof (Z.mod_pos_bound (AVL.height t) 2 ltac:(lia)) as Hm.
  lia.
Qed.

Lemma sample_avl_avl : AVL.avl sample_avl.
Proof. exact (proj2 sample_avl_valid). Defined.

Lemma height_is_logarithmic_witness :
  AVL.height sample_avl <= 2 * Z.log2 (Z.of_nat (AVL.size sample_avl) + 1) + 1.
Proof. exact (proj2 (height_is_logarithmic sample_avl sample_avl_avl)). Defined.

End ValidTreeBounds.

Section Traversals.

Lemma bst_traversals_permute (t : BST.tree) :
  Permutation (BST.pre_order t) (BST.in_order t) /\
  Permutation (BST.post_order t) (BST.in_order t).
Proof.
  induction t as [|d l [IHl1 IHl2] r [IHr1 IHr2]]; cbn; [split; constructor|].
  split.
  - apply Permutation_cons_app, Permutation_app; assumption.
  - rewrite app_assoc. eapply perm_trans.
    + apply Permutation_sym, Permutation_cons_append.
    + apply Permutation_cons_app, Permutation_app; assumption.
Qed.

Lemma avl_traversals_permute (t : AVL.tree) :
  Permutation (AVL.pre_order t) (AVL.in_order t) /\
  Permutation (AVL.post_order t) (AVL.in_order t).
Proof.
  induction t as [|d l [IHl1 IHl2] r [IHr1 IHr2] h]; cbn; [split; constructor|].
  split.
  - apply Permutation_cons_app, Permutation_app; assumption.
  - rewrite app_assoc. eapply perm_trans.
    + apply Permutation_sym, Permutation_cons_append.
    + apply Permutation_cons_app, Permutation_app; assumption.
Qed.

Lemma bst_in_order_length (t : BST.tree) :
  length (BST.in_order t) = BST.size t.
Proof.
  induction t as [|d l IHl r IHr]; cbn [BST.in_order BST.size]; [reflexivity|].
  rewrite length_app. cbn [length]. lia.
Qed.

Lemma avl_in_order_length (t : AVL.tree) :
  length (AVL.in_order t) = AVL.size t.
Proof.
  induction t as [|d l IHl r IHr h]; cbn [AVL.in_order AVL.size]; [reflexivity|].
  rewrite length_app. cbn [length]. lia.
Qed.

(** X18.  The three traversals of a tree print the same keys, each node
    once: pre-order and post-order are rearrangements of in-order, and
    each prints as many keys as the tree has nodes.  Both classes. *)
Theorem traversals_visit_every_node_once (tb : BST.tree) (ta : AVL.tree) :
  (Permutation (BST.pre_order tb) (BST.in_order tb) /\
   Permutation (BST.post_order tb) (BST.in_order tb) /\
   length (BST.in_order tb) = BST.size tb) /\
  (Permutation (AVL.pre_order ta) (AVL.in_order ta) /\
   Permutation (AVL.post_order ta) (AVL.in_order ta) /\
   length (AVL.in_order ta) = AVL.size ta).
Proof.
  destruct (bst_traversals_permute tb) as [B1 B2].
  destruct (avl_traversals_permute ta) as [A1 A2].
  auto using bst_in_order_length, avl_in_order_length.
Qed.

End Traversals.

Section NodeCounts.

Lemma length_set_insert (k : Z) (l : list Z) :
  ascending l ->
  length (set_insert k l) =
  if in_dec Z.eq_dec k l then length l else S (length l).
Proof.
  intros Hs. destruct (in_dec Z.eq_dec k l) as [Hin|Hn].
  - rewrite set_insert_present by assumption. reflexivity.
  - clear Hs. induction l as [|a l IH]; simpl in *; [reflexivity|].
    destruct (Z.ltb_spec k a); [reflexivity|].
    destruct (Z.ltb_spec a k); [|exfalso; apply Hn; left; lia].
    simpl. rewrite IH by tauto. reflexivity.
Qed.

Lemma length_delete_key (k : Z) (l : list Z) :
  ascending l ->
  length (delete_key k l) =
  if in_dec Z.eq_dec k l then pred (length l) else length l.
Proof.
  intros Hs. destruct (in_dec Z.eq_dec k l) as [Hin|Hn].
  - induction Hs as [|a l Hs IH Hf]; [contradiction|].
    destruct (Z.eq_dec k a) as [->|Hne].
    + rewrite delete_key_cons_eq, delete_key_absent; [reflexivity|].
      eapply Forall_gt_not_in; [eassumption|lia].
    + rewrite delete_key_cons_neq by assumption.
      destruct Hin as [Heq|Hin]; [congruence|].
      cbn [length]. rewrite IH by assumption.
      destruct l; [contradiction|reflexivity].
  - rewrite delete_key_absent by assumption. reflexivity.
Qed.

(** X21.  A mutation changes the number of nodes by exactly what it
    says: [insert] adds one node when the key is new and none when it is
    present, [remove] takes one node away when the key is present and
    none otherwise; in ordered plain trees and in valid self-balancing
    trees. *)
Theorem mutation_changes_size_by_one (k : Z) (tb : BST.tree) (ta : AVL.tree) :
  BST.ordered tb -> AVL.valid ta ->
  (BST.size (BST.insert tb k) =
     (if in_dec Z.eq_dec k (BST.in_order tb)
      then BST.size tb else S (BST.size tb)) /\
   BST.size (BST.remove tb k) =
     (if in_dec Z.eq_dec k (BST.in_order tb)
      then pred (BST.size tb) else BST.size tb)) /\
  ((exists t' n,
       AVL.insert ta k = Done t' n /\
       AVL.size t' =
         if in_dec Z.eq_dec k (AVL.in_order ta)
         then AVL.size ta else S (AVL.size ta)) /\
   (exists t' n,
       AVL.remove ta k = Done t' n /\
       AVL.size t' =
         if in_dec Z.eq_dec k (AVL.in_order ta)
         then pred (AVL.size ta) else AVL.size ta)).
Proof.
  intros Hb Hv. pose proof Hb as Hb'. apply bst_ordered_ascending in Hb'.
  pose proof (proj1 Hv) as Ha'. apply avl_ordered_ascending in Ha'.
  split; split.
  - rewrite <- !bst_in_order_length, bst_insert_in_order by assumption.
    apply length_set_insert, Hb'.
  - rewrite <- !bst_in_order_length, bst_remove_in_order by assumption.
    apply length_delete_key, Hb'.
  - destruct (avl_step_spec ta (Insert k) Hv) as (t' & n & E & _ & Hi).
    exists t', n. split; [exact E|].
    rewrite <- !avl_in_order_length, Hi. apply length_set_insert, Ha'.
  - destruct (avl_step_spec ta (Remove k) Hv) as (t' & n & E & _ & Hi).
    exists t', n. split; [exact E|].
    rewrite <- !avl_in_order_length, Hi. apply length_delete_key, Ha'.
Qed.

Lemma mutation_changes_size_by_one_witness :
  BST.size (BST.remove sample_bst 20) = 2%nat /\
  exists t' n, AVL.remove sample_avl 20 = Done t' n /\ AVL.size t' = 2%nat.
Proof.
  destruct (mutation_changes_size_by_one 20 sample_bst sample_avl
              sample_bst_ordered sample_avl_valid) as [[_ Hb] [_ Ha]].
  split; [exact Hb|exact Ha].
Defined.

End NodeCounts.

Section Constructors.

Lemma bst_seed_ordered (d : Z) : BST.ordered (BST.new_tree_with d).
Proof. cbn. repeat split; constructor. Qed.

Lemma avl_seed_valid (d : Z) : AVL.valid (AVL.new_tree_with d).
Proof.
  split; cbn [AVL.new_tree_with AVL.ordered AVL.avl AVL.in_order AVL.height].
  - repeat split; constructor.
  - repeat split; lia.
Qed.

(** X19.  The invariants do not depend on starting from the empty tree:
    a tree built by the constructor that takes a first key, and then
    mutated by any sequence of [insert] and [remove], still has a
    strictly ascending in-order sequence, and the self-balancing one
    still returns from every call, is balanced and stores right
    heights. *)
Theorem seeded_tree_keeps_invariants (d : Z) (ops : list op) :
  ascending (BST.in_order (BST.run ops (BST.new_tree_with d))) /\
  (exists t n,
      AVL.run ops (AVL.new_tree_with d) = Done t n /\
      ascending (AVL.in_order t) /\
      AVL.balanced t /\ AVL.heights_stored t /\
      AVL.in_order t = BST.in_order (BST.run ops (BST.new_tree_with d))).
Proof.
  split.
  - apply bst_ordered_ascending, bst_run_ordered, bst_seed_ordered.
  - destruct (avl_run_spec ops _ (avl_seed_valid d)) as (t & n & E & [Ho Ha] & Hi).
    exists t, n. split; [exact E|].
    split; [apply avl_ordered_ascending, Ho|].
    split; [apply avl_balanced, Ha|].
    split; [apply avl_heights_stored, Ha|].
    rewrite Hi, bst_run_in_order by apply bst_seed_ordered. reflexivity.
Qed.

End Constructors.

Section Degenerate.

Lemma bst_depth_nonneg (t : BST.tree) : 0 <= BST.depth t.
Proof. induction t; cbn [BST.depth]; lia. Qed.

Lemma bst_insert_above (t : BST.tree) (k : Z) :
  BST.right_spine t -> Forall (fun x => x < k) (BST.in_order t) ->
  BST.right_spine (BST.insert t k) /\
  BST.depth (BST.insert t k) = BST.depth t + 1 /\
  BST.in_order (BST.insert t k) = BST.in_order t ++ [k].
Proof.
  induction t as [|d l _ r IHr]; cbn [BST.insert].
  - intros _ _. cbn. auto.
  - intros [-> Hr] Hf. cbn [BST.in_order app] in Hf.
    inversion Hf as [|? ? Hd Hf']; subst.
    rewrite Z.gtb_ltb.
    destruct (Z.ltb_spec k d); [lia|]. destruct (Z.ltb_spec d k); [|lia].
    destruct (IHr Hr Hf') as (S1 & D1 & I1).
    pose proof (bst_depth_nonneg r).
    cbn [BST.right_spine BST.depth BST.in_order app]. rewrite D1, I1.
    repeat split; auto. lia.
Qed.

Lemma bst_run_ascending (ks : list Z) (t : BST.tree) :
  ascending ks -> BST.right_spine t ->
  Forall (fun k => Forall (fun x => x < k) (BST.in_order t)) ks ->
  BST.right_spine (BST.run (map Insert ks) t) /\
  BST.depth (BST.run (map Insert ks) t) = BST.depth t + Z.of_nat (length ks).
Proof.
  revert t. induction ks as [|k ks IH]; intros t Hs Hr Hf.
  - cbn. split; [exact Hr|lia].
  - inversion Hs as [|? ? Hs' Hlt]; subst.
    inversion Hf as [|? ? Hk Hf']; subst.
    destruct (bst_insert_above t k Hr Hk) as (S1 & D1 & I1).
    cbn [map BST.run fold_left BST.step].
    fold (BST.run (map Insert ks) (BST.insert t k)).
    destruct (IH (BST.insert t k) Hs' S1) as [S2 D2].
    + rewrite I1. rewrite Forall_forall in *. intros k' Hk'.
      rewrite Forall_forall. intros x Hx. apply in_app_or in Hx.
      destruct Hx as [Hx|[<-|[]]].
      * specialize (Hf' k' Hk'). rewrite Forall_forall in Hf'. auto.
      * auto.
    + split; [exact S2|]. rewrite D2, D1. cbn [length]. lia.
Qed.

(** X20.  The plain tree never rebalances: keys inserted in ascending
    order into an empty tree form a chain in which no node has a left
    child, as deep as the number of keys. *)
Theorem ascending_inserts_degenerate (ks : list Z) :
  ascending ks ->
  BST.right_spine (BST.run (map Insert ks) BST.Nil) /\
  BST.depth (BST.run (map Insert ks) BST.Nil) = Z.of_nat (length ks).
Proof.
  intros Hs. destruct (bst_run_ascending ks BST.Nil Hs I) as [S D].
  - apply Forall_forall. intros k _. constructor.
  - split; [exact S|]. rewrite D. cbn [BST.depth]. lia.
Qed.

Lemma ascending_inserts_degenerate_witness :
  BST.depth (BST.run (map Insert [1; 2; 3; 4]) BST.Nil) = 4.
Proof.
  apply (ascending_inserts_degenerate [1; 2; 3; 4]).
  repeat constructor; lia.
Defined.

End Degenerate.

Section Composition.

(** X22.  Repeating a mutation of a valid self-balancing tree changes
    nothing: a second [insert] of the same key, or a second [remove] of
    the same key, returns the tree the first call returned, without any
    rotation. *)
Theorem avl_repeated_mutation (t : AVL.tree) (o : op) :
  AVL.valid t ->
  exists t' n, AVL.step t o = Done t' n /\ AVL.step t' o = Done t' 0.
Proof.
  intros Hv. destruct (avl_step_spec t o Hv) as (t' & n & E & [Ho' Ha'] & Hi).
  exists t', n. split; [exact E|].
  destruct o as [k|k]; cbn [AVL.step seq_step] in *.
  - apply avl_insert_present; auto.
    rewrite Hi. apply in_set_insert. left. reflexivity.
  - apply avl_remove_absent; auto.
    rewrite Hi. intros Hin. apply in_delete_key in Hin. tauto.
Qed.

Lemma avl_repeated_mutation_witness :
  exists t' n,
    AVL.step sample_avl (Remove 20) = Done t' n /\
    AVL.step t' (Remove 20) = Done t' 0.
Proof. exact (avl_repeated_mutation sample_avl (Remove 20) sample_avl_valid). Defined.

Lemma ascending_same_keys (l1 l2 : list Z) :
  ascending l1 -> ascending l2 ->
  (forall x, In x l1 <-> In x l2) -> l1 = l2.
Proof.
  unfold ascending. intros H1. revert l2.
  induction H1 as [|a l1 Hs1 IH Hf1]; intros l2 H2 Hiff.
  - destruct l2 as [|b l2]; [reflexivity|].
    exfalso. apply (Hiff b). left. reflexivity.
  - destruct H2 as [|b l2 Hs2 Hf2].
    + exfalso. apply (Hiff a). left. reflexivity.
    + rewrite Forall_forall in Hf1, Hf2.
      assert (a = b).
      { destruct (proj1 (Hiff a) (or_introl eq_refl)) as [Hab|Hab]; [auto|].
        destruct (proj2 (Hiff b) (or_introl eq_refl)) as [Hba|Hba]; [auto|].
        apply Hf2 in Hab. apply Hf1 in Hba. lia. }
      subst b. f_equal. apply IH; [assumption|].
      intros x. split; intros Hx.
      * destruct (proj1 (Hiff x) (or_intror Hx)) as [<-|H]; [|exact H].
        apply Hf1 in Hx. lia.
      * destruct (proj2 (Hiff x) (or_intror Hx)) as [<-|H]; [|exact H].
        apply Hf2 in Hx. lia.
Qed.

(** X23.  The in-order traversal does not depend on the order of
    insertion: inserting the same keys in two different orders into an
    empty tree gives the same in-order sequence, in the plain tree and in
    the self-balancing tree, although the shapes of the trees may
    differ. *)
Theorem insertion_order_is_irrelevant (ks ks' : list Z) :
  Permutation ks ks' ->
  BST.in_order (BST.run (map Insert ks) BST.Nil) =
    BST.in_order (BST.run (map Insert ks') BST.Nil) /\
  (exists t t' n n',
      AVL.run (map Insert ks) AVL.Nil = Done t n /\
      AVL.run (map Insert ks') AVL.Nil = Done t' n' /\
      AVL.in_order t = AVL.in_order t').
Proof.
  intros Hp.
  assert (Hseq : fold_left seq_step (map Insert ks) [] =
                 fold_left seq_step (map Insert ks') []).
  { apply ascending_same_keys.
    - rewrite <- (bst_run_in_order _ BST.Nil I).
      apply bst_ordered_ascending, bst_run_ordered. exact I.
    - rewrite <- (bst_run_in_order _ BST.Nil I).
      apply bst_ordered_ascending, bst_run_ordered. exact I.
    - intros x. rewrite !in_fold_inserts. simpl.
      split; intros [H|[]]; left;
        [apply (Permutation_in _ Hp H)
        |apply (Permutation_in _ (Permutation_sym Hp) H)]. }
  split.
  - rewrite !bst_run_in_order by exact I. exact Hseq.
  - destruct (avl_run_spec (map Insert ks) AVL.Nil avl_valid_nil)
      as (t & n & E & _ & Hi).
    destruct (avl_run_spec (map Insert ks') AVL.Nil avl_valid_nil)
      as (t' & n' & E' & _ & Hi').
    exists t, t', n, n'. split; [exact E|]. split; [exact E'|].
    rewrite Hi, Hi'. exact Hseq.
Qed.

Lemma insertion_order_is_irrelevant_witness :
  BST.in_order (BST.run (map Insert [2; 1; 3]) BST.Nil) =
  BST.in_order (BST.run (map Insert [3; 1; 2]) BST.Nil).
Proof.
  apply (insertion_order_is_irrelevant [2; 1; 3] [3; 1; 2]).
  exact (Permutation_rev [2; 1; 3]).
Defined.

End Composition.
